(** * scrap-email: extraction, cleaning and mailing of prospect addresses

    A shallow embedding of [clean_emails.py], [url_processor.py] and
    [email_sender.py], and the properties of these modules.

    Python strings are sequences of Unicode code points: a [pystr] is a
    list of code points, each an [N].  The regular expressions of the two
    modules are kept as syntax and run by a backtracking matcher that
    follows the order in which Python's [re] explores alternatives. *)

From Stdlib Require Import NArith ZArith Lia Bool String Ascii.
From stdpp Require Import gmap list.

Local Open Scope N_scope.

(** ** Python strings *)

Abbreviation pystr := (list N).

(** The code points of an ASCII literal of the source. *)
Definition lit (x : string) : pystr :=
  map N_of_ascii (list_ascii_of_string x).

Definition chr (a : ascii) : N := N_of_ascii a.

(** What Python takes from the Unicode character database for code points
    above 127: [str.isalnum] (behind [\b] of [re]) and the lower-casing of
    [str.lower], which may yield several code points and may look at the
    neighbours of the code point (the string and the index are passed). *)
Class UnicodeDB := {
  uni_alnum : N -> bool;
  uni_lower : pystr -> nat -> pystr
}.

(** A database in which no code point above 127 is alphanumeric or cased. *)
Definition plain_db : UnicodeDB :=
  {| uni_alnum := fun _ => false;
     uni_lower := fun s i => match s !! i with Some c => [c] | None => [] end |}.

Definition in_range (lo hi c : N) : bool := (lo <=? c) && (c <=? hi).

Definition ascii_alnum (c : N) : bool :=
  in_range 97 122 c || in_range 65 90 c || in_range 48 57 c.

(** [\w] of [re] on [str] patterns: alphanumeric or underscore. *)
Definition is_word `{U : UnicodeDB} (c : N) : bool :=
  if c <? 128 then ascii_alnum c || (c =? 95) else uni_alnum c.

(** [str.startswith]. *)
Fixpoint startswith (s prefix : pystr) : bool :=
  match prefix, s with
  | [], _ => true
  | p :: prefix', c :: s' => (c =? p) && startswith s' prefix'
  | _ :: _, [] => false
  end.

(** [needle in s] on strings: [needle] occurs in [s] as a substring. *)
Fixpoint contains (needle s : pystr) : bool :=
  startswith s needle ||
  match s with
  | [] => false
  | _ :: s' => contains needle s'
  end.

(** [str.lower]: ASCII capitals go to their small letters, other ASCII code
    points stay, the rest is lowered by the Unicode database. *)
Definition lower_at `{U : UnicodeDB} (s : pystr) (i : nat) (c : N) : pystr :=
  if c <? 128 then [if in_range 65 90 c then c + 32 else c]
  else uni_lower s i.

Definition lower `{U : UnicodeDB} (s : pystr) : pystr :=
  concat (imap (lower_at s) s).

(** [str.split(sep)] for a one-character separator: the pieces between the
    separators, [[""]] for the empty string. *)
Fixpoint split (sep : N) (s : pystr) : list pystr :=
  match s with
  | [] => [[]]
  | c :: s' =>
      if c =? sep then [] :: split sep s'
      else match split sep s' with
           | piece :: rest => (c :: piece) :: rest
           | [] => [[c]]
           end
  end.

(** [sep.join(pieces)]. *)
Fixpoint join (sep : pystr) (pieces : list pystr) : pystr :=
  match pieces with
  | [] => []
  | [p] => p
  | p :: rest => p ++ sep ++ join sep rest
  end.

(** ** Regular expressions

    The patterns of the source are sequences of greedy repetitions of a
    character class, and the assertion [\b]. *)

Inductive cset_item :=
  | Range (lo hi : ascii)
  | Single (c : ascii).

Definition in_item (c : N) (i : cset_item) : bool :=
  match i with
  | Range lo hi => in_range (chr lo) (chr hi) c
  | Single a => c =? chr a
  end.

Definition in_class (cls : list cset_item) (c : N) : bool :=
  existsb (in_item c) cls.

Inductive atom :=
  | Rep (cls : list cset_item) (lo : nat) (hi : option nat)
  | Bound.

Abbreviation regex := (list atom).

Definition plus (cls : list cset_item) : atom := Rep cls 1 None.
Definition one (a : ascii) : atom := Rep [Single a] 1 (Some 1%nat).

(** The number of leading code points of [s] in the class, at most [cap]:
    what a greedy repetition takes first. *)
Fixpoint span (p : N -> bool) (cap : option nat) (s : pystr) : nat :=
  match cap, s with
  | Some O, _ => O
  | _, [] => O
  | _, c :: s' => if p c then S (span p (pred <$> cap) s') else O
  end.

(** Try the continuation after [n], [n-1], ..., [lo] repetitions; the first
    success wins and gives the total length. *)
Fixpoint backtrack (k : nat -> option nat) (lo n : nat) : option nat :=
  if (n <? lo)%nat then None
  else match k n with
       | Some e => Some (n + e)%nat
       | None => match n with
                 | O => None
                 | S n' => backtrack k lo n'
                 end
       end.

(** The code point before the position reached after [n] more code points. *)
Definition prev_after (n : nat) (prev : option N) (s : pystr) : option N :=
  match n with
  | O => prev
  | S n' => s !! n'
  end.

Definition word_opt `{U : UnicodeDB} (c : option N) : bool :=
  match c with
  | Some c => is_word c
  | None => false
  end.

(** [\b]: exactly one of the code points around the position is a word
    character; the ends of the string count as non-word. *)
Definition at_boundary `{U : UnicodeDB} (prev next : option N) : bool :=
  xorb (word_opt prev) (word_opt next).

(** Match [r] at the start of [s], [prev] being the code point before it:
    the length of the first match in backtracking order. *)
Fixpoint match_here `{U : UnicodeDB} (r : regex) (prev : option N) (s : pystr)
  : option nat :=
  match r with
  | [] => Some O
  | Bound :: r' =>
      if at_boundary prev (head s) then match_here r' prev s else None
  | Rep cls lo hi :: r' =>
      backtrack (fun n => match_here r' (prev_after n prev s) (drop n s))
                lo (span (in_class cls) hi s)
  end.

(** [re.search]: the leftmost position at which the pattern matches, with
    the length of the match there. *)
Fixpoint search_from `{U : UnicodeDB} (r : regex) (pos : nat) (prev : option N)
  (s : pystr) : option (nat * nat) :=
  match match_here r prev s with
  | Some len => Some (pos, len)
  | None =>
      match s with
      | [] => None
      | c :: s' => search_from r (S pos) (Some c) s'
      end
  end.

Definition re_search `{U : UnicodeDB} (r : regex) (s : pystr) : option (nat * nat) :=
  search_from r O None s.

(** [re.findall] for a pattern without groups: the matched substrings, left
    to right, each search resuming where the previous match ended.  [skip]
    code points are still covered by the last match.  (The patterns of the
    source match no empty string.) *)
Fixpoint findall_from `{U : UnicodeDB} (r : regex) (skip : nat) (prev : option N)
  (s : pystr) : list pystr :=
  match skip, s with
  | S skip', c :: s' => findall_from r skip' (Some c) s'
  | S _, [] => []
  | O, _ =>
      match match_here r prev s with
      | Some len =>
          take len s ::
          match s with
          | [] => []
          | c :: s' => findall_from r (pred len) (Some c) s'
          end
      | None =>
          match s with
          | [] => []
          | c :: s' => findall_from r O (Some c) s'
          end
      end
  end.

Definition re_findall `{U : UnicodeDB} (r : regex) (s : pystr) : list pystr :=
  findall_from r O None s.

(** ** clean_emails.py *)

Module clean_emails.

(** [r'([a-zA-Z0-9_.+-]+@[a-zA-Z0-9-]+\.[a-zA-Z0-9-]{2,6})\b'] *)
Definition local_part : list cset_item :=
  [Range "a" "z"; Range "A" "Z"; Range "0" "9";
   Single "_"; Single "."; Single "+"; Single "-"].
Definition label : list cset_item :=
  [Range "a" "z"; Range "A" "Z"; Range "0" "9"; Single "-"].

(** Group 1 of the pattern. *)
Definition EMAIL_GROUP : regex :=
  [plus local_part; one "@"; plus label; one "."; Rep label 2 (Some 6%nat)].

Definition EMAIL_REGEX : regex := EMAIL_GROUP ++ [Bound].

(** [clean_email]: [\b] takes no code point, so group 1 is the whole match. *)
Definition clean_email `{U : UnicodeDB} (email : pystr) : pystr :=
  match re_search EMAIL_REGEX email with
  | Some (start, len) => take len (drop start email)
  | None => []
  end.

(** A table as [csv.reader] returns it: a list of rows, each a list of
    fields; the first row is the header. *)
Abbreviation csv_row := (list pystr).

(** [col.lower() in ['emails', 'email', 'mail', 'courriel']] *)
Definition email_column_names : list pystr :=
  [lit "emails"; lit "email"; lit "mail"; lit "courriel"].

Definition is_email_column `{U : UnicodeDB} (col : pystr) : bool :=
  bool_decide (lower col ∈ email_column_names).

(** The loop over [enumerate(header)] with its [break]: the first index of
    a recognised column name. *)
Fixpoint find_email_col `{U : UnicodeDB} (i : nat) (header : csv_row) : option nat :=
  match header with
  | [] => None
  | col :: rest =>
      if is_email_column col then Some i else find_email_col (S i) rest
  end.

(** [email_col_idx], the last column when no name is recognised; it is -1
    for an empty header. *)
Definition email_col_idx `{U : UnicodeDB} (header : csv_row) : Z :=
  match find_email_col O header with
  | Some i => Z.of_nat i
  | None => (Z.of_nat (length header) - 1)%Z
  end.

(** Python's [row[i]]: a negative index counts from the end; [None] stands
    for [IndexError]. *)
Definition py_index {A} (l : list A) (i : Z) : option nat :=
  let n := Z.of_nat (length l) in
  if ((0 <=? i) && (i <? n))%Z then Some (Z.to_nat i)
  else if ((- n <=? i) && (i <? 0))%Z then Some (Z.to_nat (n + i))
  else None.

Definition truthy (s : pystr) : bool :=
  match s with
  | [] => false
  | _ :: _ => true
  end.

(** The inner loop: [cleaned_emails] collects the non-empty results of
    [clean_email], in order. *)
Fixpoint clean_list `{U : UnicodeDB} (emails_list : list pystr) : list pystr :=
  match emails_list with
  | [] => []
  | email :: rest =>
      let cleaned := clean_email email in
      if truthy cleaned then cleaned :: clean_list rest else clean_list rest
  end.

(** What one iteration of the loop over [data[1:]] does with a row. *)
Inductive row_outcome :=
  | Skipped
  | Kept (new_row : csv_row) (before after : nat)
  | RowIndexError.

Definition semicolon : N := chr ";".

Definition clean_row `{U : UnicodeDB} (idx : Z) (row : csv_row) : row_outcome :=
  if (Z.of_nat (length row) <=? idx)%Z then Skipped
  else
    match py_index row idx with
    | None => RowIndexError
    | Some j =>
        match row !! j with
        | None => RowIndexError
        | Some emails_str =>
            if negb (truthy emails_str) then Kept row 0 0
            else
              let emails_list := split semicolon emails_str in
              let cleaned_emails := clean_list emails_list in
              Kept (<[j := join [semicolon] cleaned_emails]> row)
                   (length emails_list) (length cleaned_emails)
        end
    end.

(** The state the loop carries. *)
Record cleaning := {
  cleaned_data : list csv_row;
  total_emails_before : nat;
  total_emails_after : nat
}.

(** The loop over the data rows; [None] when an [IndexError] escapes. *)
Fixpoint clean_rows `{U : UnicodeDB} (idx : Z) (rows : list csv_row) (st : cleaning)
  : option cleaning :=
  match rows with
  | [] => Some st
  | row :: rest =>
      match clean_row idx row with
      | Skipped => clean_rows idx rest st
      | Kept new_row before after =>
          clean_rows idx rest
            {| cleaned_data := cleaned_data st ++ [new_row];
               total_emails_before := (total_emails_before st + before)%nat;
               total_emails_after := (total_emails_after st + after)%nat |}
      | RowIndexError => None
      end
  end.

Inductive cleaning_result :=
  | NotWritten                      (* message printed, nothing written *)
  | Raised                          (* an exception leaves the function *)
  | Written (st : cleaning).        (* [cleaned_data] goes to [writerows] *)

(** [clean_emails_file] on the content of the input file: [None] when the
    file is missing or cannot be read. *)
Definition clean_emails_file `{U : UnicodeDB} (input : option (list csv_row))
  : cleaning_result :=
  match input with
  | None => NotWritten
  | Some [] => NotWritten
  | Some (header :: rows) =>
      match clean_rows (email_col_idx header) rows
              {| cleaned_data := [header];
                 total_emails_before := 0; total_emails_after := 0 |} with
      | Some st => Written st
      | None => Raised
      end
  end.

End clean_emails.

(** ** url_processor.py *)

Module url_processor.

(** [r'[a-zA-Z0-9._%+-]+@[a-zA-Z0-9.-]+\.[a-zA-Z]{2,}'] *)
Definition EMAIL_REGEX : regex :=
  [plus [Range "a" "z"; Range "A" "Z"; Range "0" "9";
         Single "."; Single "_"; Single "%"; Single "+"; Single "-"];
   one "@";
   plus [Range "a" "z"; Range "A" "Z"; Range "0" "9"; Single "."; Single "-"];
   one ".";
   Rep [Range "a" "z"; Range "A" "Z"] 2 None].

(** An [<a>] element as BeautifulSoup gives it: its [href] attribute, when
    it has one, and its text. *)
Record anchor := {
  href_attr : option pystr;
  get_text : pystr
}.

(** [link.get('href', '')] *)
Definition get_href (link : anchor) : pystr := default [] (href_attr link).

(** A parsed page: [soup.get_text()] and [soup.find_all('a')]. *)
Record soup := {
  soup_text : pystr;
  soup_links : list anchor
}.

Inductive http_result :=
  | HttpError                                   (* [requests.get] raises *)
  | Response (status_code : Z) (page : soup).

(** The outside world of the scraper: the verdict of [validators.url] and
    what the [n]-th request of a run returns for a URL. *)
Record Web := {
  validators_url : pystr -> bool;
  requests_get : nat -> pystr -> http_result
}.

Inductive event :=
  | PrintInvalidUrl (url : pystr)
  | PrintAccessError (url : pystr)
  | PrintContactError (url : pystr)
  | Get (url : pystr) (timeout : Z)
  | Sleep.

Definition is_get (e : event) : bool :=
  match e with
  | Get _ _ => true
  | _ => false
  end.

(** [str.rstrip('/')] *)
Definition rstrip (c : N) (s : pystr) : pystr :=
  foldr (fun x acc => match acc with
                      | [] => if x =? c then [] else [x]
                      | _ :: _ => x :: acc
                      end) [] s.

(** The loop over the links for [mailto:] addresses. *)
Fixpoint harvest_mailto (links : list anchor) (emails : gset pystr) : gset pystr :=
  match links with
  | [] => emails
  | link :: rest =>
      let href := get_href link in
      if startswith href (lit "mailto:") then
        let email := drop 7 href in
        if bool_decide (chr "@" ∈ email)
        then harvest_mailto rest (emails ∪ {[email]})
        else harvest_mailto rest emails
      else harvest_mailto rest emails
  end.

(** ['à propos'] *)
Definition a_propos : pystr := 224 :: lit " propos".

(** The condition under which a link is taken as a contact link. *)
Definition is_contact_link `{U : UnicodeDB} (link : anchor) : bool :=
  let href := get_href link in
  let text := lower (get_text link) in
  contains (lit "contact") (lower href) || contains (lit "contact") text ||
  contains (lit "about") (lower href) || contains a_propos text.

Definition resolve (url href : pystr) : pystr :=
  if startswith href (lit "/") then rstrip (chr "/") url ++ href
  else if startswith href (lit "http") then href
  else rstrip (chr "/") url ++ lit "/" ++ href.

(** The loop that fills [contact_links]. *)
Fixpoint find_contact_links `{U : UnicodeDB} (url : pystr) (links : list anchor)
  : list pystr :=
  match links with
  | [] => []
  | link :: rest =>
      if is_contact_link link
      then resolve url (get_href link) :: find_contact_links url rest
      else find_contact_links url rest
  end.

(** The visits of the contact pages; [n] numbers the requests. *)
Fixpoint visit_contacts `{U : UnicodeDB} (W : Web) (n : nat) (contact_urls : list pystr)
  (emails : gset pystr) : gset pystr * list event :=
  match contact_urls with
  | [] => (emails, [])
  | contact_url :: rest =>
      let '(emails', log) :=
        match requests_get W n contact_url with
        | Response status page =>
            if (status =? 200)%Z
            then (emails ∪ list_to_set (re_findall EMAIL_REGEX (soup_text page)), [])
            else (emails, [])
        | HttpError => (emails, [PrintContactError contact_url])
        end in
      let '(emails'', log') := visit_contacts W (S n) rest emails' in
      (emails'', Get contact_url 5 :: log ++ Sleep :: log')
  end.

Definition add_scheme (url : pystr) : pystr :=
  if startswith url (lit "http://") || startswith url (lit "https://")
  then url else lit "https://" ++ url.

(** [extract_emails_from_url]: the set [emails] at the return (the function
    returns [list(emails)], in the iteration order of the set) and what the
    call did, in order. *)
Definition extract_emails_from_url `{U : UnicodeDB} (W : Web) (url : pystr)
  : gset pystr * list event :=
  let emails : gset pystr := ∅ in
  if negb (validators_url W url) then (emails, [PrintInvalidUrl url])
  else
    let url := add_scheme url in
    match requests_get W 0 url with
    | HttpError => (emails, [Get url 10; PrintAccessError url])
    | Response status page =>
        if (status =? 200)%Z then
          let emails := emails ∪ list_to_set (re_findall EMAIL_REGEX (soup_text page)) in
          let emails := harvest_mailto (soup_links page) emails in
          let contact_links := find_contact_links url (soup_links page) in
          let '(emails, log) := visit_contacts W 1 (take 2 contact_links) emails in
          (emails, Get url 10 :: log)
        else (emails, [Get url 10])
    end.

End url_processor.

(** ** email_sender.py *)

Module email_sender.

(** The variables the module reads from [os.environ]; [None] when a
    variable is not set. *)
Record environ := {
  SMTP_FROM_EMAIL : option pystr;
  SMTP_SERVER : option pystr;
  SMTP_PORT : option pystr;
  SMTP_USERNAME : option pystr;
  SMTP_PASSWORD : option pystr
}.

(** A row is a [dict] from column names to values, in insertion order; a
    value is a string or [None] (what [csv.DictReader] gives for a short
    line). *)
Abbreviation row := (list (pystr * option pystr)).

Inductive pyobj :=
  | PyDict (d : row)
  | PyOther.

(** The argument [emails_data]: a list of objects, or something else. *)
Inductive pydata :=
  | DataList (l : list pyobj)
  | DataOther.

(** The outside world of the mailer: the content of a file ([None] when
    [open] or [read] raises), [int] on a string ([None] for [ValueError])
    and whether the [n]-th SMTP session of a run goes through. *)
Record Mail := {
  read_file : pystr -> option pystr;
  py_int : pystr -> option Z;
  smtp_session : nat -> bool
}.

Inductive event :=
  | PrintInvalidData
  | PrintTemplateError (template_file : pystr)
  | PrintConfigMissing
  | PrintSending (n : nat)
  | PrintSmtpInfoMissing
  | PrintSendError (to_email : pystr)
  | PrintSent (n : nat)
  | Smtp (server : pystr) (port : Z) (username to_email subject body : pystr)
  | Sleep.

(** The events that reach the network. *)
Definition is_network (e : event) : bool :=
  match e with
  | Smtp _ _ _ _ _ _ => true
  | _ => false
  end.

Definition is_print (e : event) : bool :=
  match e with
  | Smtp _ _ _ _ _ _ | Sleep => false
  | _ => true
  end.

(** Truth value of a string or [None]. *)
Definition truthy (v : option pystr) : bool :=
  match v with
  | Some (_ :: _) => true
  | _ => false
  end.

(** [a or b] *)
Definition py_or (a b : option pystr) : option pystr :=
  if truthy a then a else b.

(** [str(value)] *)
Definition str (v : option pystr) : pystr :=
  match v with
  | Some s => s
  | None => lit "None"
  end.

(** The code points [str.strip] removes. *)
Definition is_space (c : N) : bool :=
  in_range 9 13 c || in_range 28 32 c || (c =? 133) || (c =? 160) ||
  (c =? 5760) || in_range 8192 8202 c || (c =? 8232) || (c =? 8233) ||
  (c =? 8239) || (c =? 8287) || (c =? 12288).

Fixpoint lstrip (s : pystr) : pystr :=
  match s with
  | c :: s' => if is_space c then lstrip s' else s
  | [] => []
  end.

Definition strip (s : pystr) : pystr :=
  reverse (lstrip (reverse (lstrip s))).

(** [str.replace(old, new)] for a non-empty [old]: the occurrences are
    found left to right and do not overlap; [skip] code points still
    belong to the occurrence just replaced. *)
Fixpoint replace_from (old new : pystr) (skip : nat) (s : pystr) : pystr :=
  match s with
  | [] => []
  | c :: s' =>
      match skip with
      | S skip' => replace_from old new skip' s'
      | O =>
          if startswith s old
          then new ++ replace_from old new (pred (length old)) s'
          else c :: replace_from old new O s'
      end
  end.

(** [str.replace(old, new)]; for an empty [old], [new] goes before every
    code point and at the end. *)
Definition replace (old new s : pystr) : pystr :=
  match old with
  | [] => new ++ flat_map (fun c => c :: new) s
  | _ :: _ => replace_from old new O s
  end.

(** [f"{{{{{key}}}}}"] *)
Definition placeholder (key : pystr) : pystr := lit "{{" ++ key ++ lit "}}".

Definition emails_key : pystr := lit "emails".

(** The loop over [row.items()] that personalises the body. *)
Fixpoint render_items (items : row) (personalized_body : pystr) : pystr :=
  match items with
  | [] => personalized_body
  | (key, value) :: rest =>
      render_items rest
        (if bool_decide (key ≠ emails_key)
         then replace (placeholder key) (str value) personalized_body
         else personalized_body)
  end.

Definition render (template : pystr) (r : row) : pystr := render_items r template.

(** [dict.get(key, default)] *)
Fixpoint dict_get (d : row) (key : pystr) (dflt : option pystr) : option pystr :=
  match d with
  | [] => dflt
  | (k, v) :: rest => if bool_decide (k = key) then v else dict_get rest key dflt
  end.

(** [send_email]; [None] when [int] raises on the port.  The session is one
    event, with its outcome given by the world. *)
Definition send_email (M : Mail) (env : environ) (n : nat)
  (to_email subject body : pystr)
  (from_email smtp_server : option pystr) (smtp_port : option Z)
  (smtp_username smtp_password : option pystr) : option (bool * list event) :=
  let from_email := py_or from_email (SMTP_FROM_EMAIL env) in
  let smtp_server := py_or smtp_server (SMTP_SERVER env) in
  let port :=
    match smtp_port with
    | Some p => if (p =? 0)%Z then None else Some p
    | None => None
    end in
  let port :=
    match port with
    | Some p => Some p
    | None => match SMTP_PORT env with
              | Some s => py_int M s
              | None => Some 587%Z
              end
    end in
  let smtp_username := py_or smtp_username (SMTP_USERNAME env) in
  let smtp_password := py_or smtp_password (SMTP_PASSWORD env) in
  match port with
  | None => None
  | Some smtp_port =>
      if negb (truthy from_email && truthy smtp_server && negb (smtp_port =? 0)%Z
               && truthy smtp_username && truthy smtp_password)
      then Some (false, [PrintSmtpInfoMissing])
      else
        let session := Smtp (str smtp_server) smtp_port (str smtp_username)
                            to_email subject body in
        if smtp_session M n then Some (true, [session])
        else Some (false, [session; PrintSendError to_email])
  end.

(** What the loops of [send_emails] carry: the counter, the number of SMTP
    sessions so far, and the events so far. *)
Record sending := {
  sent_count : nat;
  sessions : nat;
  log : list event
}.

(** How a loop ends: normally, or by an exception that leaves it. *)
Inductive run :=
  | Finished (st : sending)
  | Interrupted (st : sending).

(** The loop over the addresses of one row. *)
Fixpoint send_row (M : Mail) (env : environ) (template subject : pystr)
  (r : row) (email_list : list pystr) (st : sending) : run :=
  match email_list with
  | [] => Finished st
  | email :: rest =>
      let email := strip email in
      match email with
      | [] => send_row M env template subject r rest st
      | _ :: _ =>
          let personalized_body := render template r in
          match send_email M env (sessions st) email subject personalized_body
                  None None None None None with
          | None => Interrupted st
          | Some (ok, events) =>
              send_row M env template subject r rest
                {| sent_count := if ok then S (sent_count st) else sent_count st;
                   sessions := (sessions st + length (filter is_network events))%nat;
                   log := log st ++ events ++ [Sleep] |}
          end
      end
  end.

(** The loop over the rows; [row.get('emails', '')] is [None] for a row
    whose emails value is [None], and [.split] then raises. *)
Fixpoint send_rows (M : Mail) (env : environ) (template subject : pystr)
  (rows : list row) (st : sending) : run :=
  match rows with
  | [] => Finished st
  | r :: rest =>
      match dict_get r emails_key (Some []) with
      | None => Interrupted st
      | Some emails =>
          match send_row M env template subject r (split (chr ";") emails) st with
          | Finished st' => send_rows M env template subject rest st'
          | Interrupted st' => Interrupted st'
          end
      end
  end.

Definition as_dict (o : pyobj) : option row :=
  match o with
  | PyDict d => Some d
  | PyOther => None
  end.

Inductive outcome :=
  | Returned (n : nat)
  | Propagated.               (* an exception leaves [send_emails] *)

(** [send_emails]: what it returns and the events of the call. *)
Definition send_emails (M : Mail) (env : environ) (emails_data : pydata)
  (template_file subject : pystr) : outcome * list event :=
  match emails_data with
  | DataOther => (Returned 0, [PrintInvalidData])
  | DataList l =>
      match mapM as_dict l with
      | None => (Returned 0, [PrintInvalidData])
      | Some rows =>
          match read_file M template_file with
          | None => (Returned 0, [PrintTemplateError template_file])
          | Some template =>
              if negb (truthy (SMTP_FROM_EMAIL env) && truthy (SMTP_SERVER env) &&
                       truthy (SMTP_USERNAME env) && truthy (SMTP_PASSWORD env))
              then (Returned 0, [PrintConfigMissing])
              else
                match send_rows M env template subject rows
                        {| sent_count := 0; sessions := 0;
                           log := [PrintSending (length rows)] |} with
                | Finished st => (Returned (sent_count st),
                                  log st ++ [PrintSent (sent_count st)])
                | Interrupted st => (Propagated, log st)
                end
          end
      end
  end.

End email_sender.

(** ** url_processor.py, the batch *)

Module batch.
Import url_processor.

(** A row as [csv.DictReader] gives it: a [dict] from the names of the
    header to the fields of the line, [None] where the line is short.
    (Lines longer than the header, which get a further key, are left out of
    the model.) *)
Abbreviation row := (list (pystr * option pystr)).

Definition emails_key : pystr := lit "emails".

(** [col.lower() in ['url', 'site', 'website', 'site_web', 'lien']] *)
Definition url_column_names : list pystr :=
  [lit "url"; lit "site"; lit "website"; lit "site_web"; lit "lien"].

(** The loop over [data[0].keys()] with its [break]. *)
Fixpoint find_url_column `{U : UnicodeDB} (keys : list pystr) : option pystr :=
  match keys with
  | [] => None
  | col :: rest =>
      if bool_decide (lower col ∈ url_column_names) then Some col
      else find_url_column rest
  end.

(** [d[key]]; [None] stands for [KeyError]. *)
Fixpoint dict_lookup (d : row) (key : pystr) : option (option pystr) :=
  match d with
  | [] => None
  | (k, v) :: rest => if bool_decide (k = key) then Some v else dict_lookup rest key
  end.

(** [d[key] = value]: a key of the dict keeps its place, a new key goes to
    the end. *)
Fixpoint dict_set (d : row) (key : pystr) (value : option pystr) : row :=
  match d with
  | [] => [(key, value)]
  | (k, v) :: rest =>
      if bool_decide (k = key) then (k, value) :: rest
      else (k, v) :: dict_set rest key value
  end.

(** Truth value of a string or [None]. *)
Definition truthy (v : option pystr) : bool :=
  match v with
  | Some (_ :: _) => true
  | _ => false
  end.

(** The outside world of the batch: the web seen by the [k]-th call of
    [extract_emails_from_url], and the order in which [list(emails)] lists
    a set. *)
Record Scraping := {
  web_of : nat -> Web;
  list_of : gset pystr -> list pystr
}.

Inductive event :=
  | PrintReadError
  | PrintNoUrlColumn (columns : list pystr)
  | PrintExtracting (n : nat)
  | Scrape (e : url_processor.event)      (* an event of the extraction *)
  | Pause                                  (* the sleep between two rows *)
  | PrintSaved (n : nat).

Definition is_fetch (e : event) : bool :=
  match e with
  | Scrape (Get _ _) => true
  | _ => false
  end.

(** How the loop over the rows ends: with the rows as it leaves them, or
    by a [KeyError] that leaves it. *)
Inductive run :=
  | Finished (data : list row) (calls : nat) (log : list event)
  | Interrupted (log : list event).

(** The loop that treats each URL; [k] counts the extractions so far. *)
Fixpoint process_rows `{U : UnicodeDB} (S : Scraping) (url_column : pystr)
  (k : nat) (data : list row) : run :=
  match data with
  | [] => Finished [] k []
  | r :: rest =>
      match dict_lookup r url_column with
      | None => Interrupted []
      | Some None | Some (Some []) =>
          match process_rows S url_column k rest with
          | Finished rest' k' log => Finished (r :: rest') k' log
          | Interrupted log => Interrupted log
          end
      | Some (Some url) =>
          let '(found, events) := extract_emails_from_url (web_of S k) url in
          let emails := list_of S found in
          let r' := match emails with
                    | [] => r
                    | _ :: _ => dict_set r emails_key (Some (join [chr ";"] emails))
                    end in
          let here := (Scrape <$> events) ++ [Pause] in
          match process_rows S url_column (Datatypes.S k) rest with
          | Finished rest' k' log => Finished (r' :: rest') k' (here ++ log)
          | Interrupted log => Interrupted (here ++ log)
          end
      end
  end.

Inductive result :=
  | NotWritten                       (* a message is printed, nothing written *)
  | Raised                           (* an exception leaves the function *)
  | Written (fieldnames : list pystr) (emails_data : list row).

(** [process_urls] on the rows read from the input file ([None] when the
    reading raises): what becomes of the output file ([Written] carries
    what goes to [writeheader] and [writerows]) and the events of the
    call. *)
Definition process_urls `{U : UnicodeDB} (S : Scraping) (input : option (list row))
  : result * list event :=
  match input with
  | None => (NotWritten, [PrintReadError])
  | Some [] => (Raised, [])
  | Some ((first :: _) as data) =>
      match find_url_column first.*1 with
      | None => (NotWritten, [PrintNoUrlColumn first.*1])
      | Some url_column =>
          let data := (fun r => dict_set r emails_key None) <$> data in
          match process_rows S url_column 0 data with
          | Interrupted log => (Raised, PrintExtracting (length data) :: log)
          | Finished data' _ log =>
              let emails_data :=
                filter (fun r => truthy (default None (dict_lookup r emails_key)) = true)
                       data' in
              (Written (default [] (head data')).*1 emails_data,
               PrintExtracting (length data) :: log
                 ++ [PrintSaved (length emails_data)])
          end
      end
  end.

End batch.

(** ** Words of the properties *)

(** A string [w] has the shape of the pattern [r]: it splits into one run
    of code points per repetition, each in its class and of an allowed
    length.  The assertion [\b] takes no code point. *)
Fixpoint shape (r : regex) (w : pystr) : Prop :=
  match r with
  | [] => w = []
  | Bound :: r' => shape r' w
  | Rep cls lo hi :: r' =>
      exists u v, w = u ++ v /\
        Forall (fun c => in_class cls c = true) u /\
        (lo <= length u)%nat /\
        from_option (fun h => (length u <= h)%nat) True hi /\
        shape r' v
  end.

(** The pattern [r] matches the whole of [w], [prev] being the code point
    before it and nothing coming after it: as [shape], with every [\b] of
    the pattern holding where it stands. *)
Fixpoint full_shape `{U : UnicodeDB} (r : regex) (prev : option N) (w : pystr)
  : Prop :=
  match r with
  | [] => w = []
  | Bound :: r' => at_boundary prev (head w) = true /\ full_shape r' prev w
  | Rep cls lo hi :: r' =>
      exists u v, w = u ++ v /\
        Forall (fun c => in_class cls c = true) u /\
        (lo <= length u)%nat /\
        from_option (fun h => (length u <= h)%nat) True hi /\
        full_shape r' (from_option Some prev (last u)) v
  end.

Definition full_match `{U : UnicodeDB} (r : regex) (w : pystr) : Prop :=
  full_shape r None w.

(** [w] occurs in [s] as a contiguous substring. *)
Definition substring (w s : pystr) : Prop :=
  exists pre post, s = pre ++ w ++ post.

(** The strict pattern in the words of the specification: a local part over
    letters, digits and [_.+-], an [@], one domain label over letters,
    digits and [-], a dot, and a top-level label of 2 to 6 such code
    points. *)
Definition spec_local_char (c : N) : bool :=
  ascii_alnum c || bool_decide (c ∈ lit "_.+-").

Definition spec_label_char (c : N) : bool :=
  ascii_alnum c || (c =? chr "-").

Definition strict_email (w : pystr) : Prop :=
  exists loc dom tld,
    w = loc ++ [chr "@"] ++ dom ++ [chr "."] ++ tld /\
    loc <> [] /\ Forall (fun c => spec_local_char c = true) loc /\
    dom <> [] /\ Forall (fun c => spec_label_char c = true) dom /\
    (2 <= length tld <= 6)%nat /\ Forall (fun c => spec_label_char c = true) tld.

(** The number of addresses the cleaner counts in an emails field: none in
    an empty field, otherwise the pieces between the semicolons. *)
Definition count_emails (field : pystr) : nat :=
  match field with
  | [] => O
  | _ :: _ => length (split clean_emails.semicolon field)
  end.

(** A cleaned row stands for a row of the input: as many fields, and the
    same field everywhere but at the emails column. *)
Definition same_but_emails (idx : Z) (row new_row : clean_emails.csv_row) : Prop :=
  length new_row = length row /\
  forall j, Z.of_nat j <> idx -> new_row !! j = row !! j.

(** The classification of a link in the words of the specification: one of
    the keywords occurs in the lowered href or in the lowered text, every
    keyword being looked for in both. *)
Definition contact_keywords : list pystr :=
  [lit "contact"; lit "about"; url_processor.a_propos].

Definition spec_contact_like `{U : UnicodeDB} (link : url_processor.anchor) : bool :=
  existsb (fun kw => contains kw (lower (url_processor.get_href link)) ||
                     contains kw (lower (url_processor.get_text link)))
          contact_keywords.

(** A configuration value is missing: the variable is not set, or it is
    set to the empty string. *)
Definition missing (v : option pystr) : Prop := v = None \/ v = Some [].

(** No placeholder of a key of the row, the emails key apart, occurs in
    [text]. *)
Definition placeholder_free (r : email_sender.row) (text : pystr) : bool :=
  forallb (fun kv => bool_decide (kv.1 = email_sender.emails_key) ||
                     negb (contains (email_sender.placeholder kv.1) text)) r.

(** A template given by its pieces: text, and placeholders by the name
    between their braces. *)
Inductive piece :=
  | Text (s : pystr)
  | Hole (name : pystr).

Definition piece_text (p : piece) : pystr :=
  match p with
  | Text s => s
  | Hole name => email_sender.placeholder name
  end.

(** The template as the string that is rendered. *)
Definition flatten (tpl : list piece) : pystr := mjoin (piece_text <$> tpl).

Definition no_brace (s : pystr) : Prop := (chr "{" ∉ s) /\ (chr "}" ∉ s).

(** The braces of the template are those of its placeholders: its text
    holds no opening brace, and the names of its placeholders no brace. *)
Definition plain_piece (p : piece) : Prop :=
  match p with
  | Text s => chr "{" ∉ s
  | Hole name => no_brace name
  end.

Definition plain_template (tpl : list piece) : Prop := Forall plain_piece tpl.

(** Of every column other than the emails column, the name holds no brace
    and the value no opening brace (and so no placeholder). *)
Definition plain_row (r : email_sender.row) : Prop :=
  Forall (fun kv => kv.1 <> email_sender.emails_key ->
                    no_brace kv.1 /\ (chr "{" ∉ email_sender.str kv.2)) r.

(** The placeholders of [key] filled with [new], piece by piece, and the
    same for the columns of a row in their order. *)
Definition fill (key new : pystr) (p : piece) : piece :=
  match p with
  | Text s => Text s
  | Hole name => if bool_decide (name = key) then Text new else Hole name
  end.

Fixpoint fill_row (r : email_sender.row) (tpl : list piece) : list piece :=
  match r with
  | [] => tpl
  | (key, value) :: rest =>
      fill_row rest
        (if bool_decide (key ≠ email_sender.emails_key)
         then fill key (email_sender.str value) <$> tpl
         else tpl)
  end.

(** The value holds no brace, and so no placeholder. *)
Definition brace_free (v : option pystr) : Prop :=
  (chr "{" ∉ email_sender.str v) /\ (chr "}" ∉ email_sender.str v).

(** The extraction pattern as a property of a string: a local part over
    letters, digits and [._%+-], an [@], a domain over letters, digits, dots
    and hyphens, a dot, and at least two letters. *)
Definition ascii_letter (c : N) : bool := in_range 97 122 c || in_range 65 90 c.

Definition loose_local_char (c : N) : bool :=
  ascii_alnum c || bool_decide (c ∈ lit "._%+-").

Definition loose_domain_char (c : N) : bool :=
  ascii_alnum c || bool_decide (c ∈ lit ".-").

Definition loose_email (w : pystr) : Prop :=
  exists loc dom tld,
    w = loc ++ [chr "@"] ++ dom ++ [chr "."] ++ tld /\
    loc <> [] /\ Forall (fun c => loose_local_char c = true) loc /\
    dom <> [] /\ Forall (fun c => loose_domain_char c = true) dom /\
    (2 <= length tld)%nat /\ Forall (fun c => ascii_letter c = true) tld.

(** The string ends with an ASCII letter or digit. *)
Definition ends_alnum (w : pystr) : Prop :=
  exists c, last w = Some c /\ ascii_alnum c = true.

(** An emails field that the cleaner has nothing to do on: it is empty, or
    each of its pieces is a strict address that ends with a letter or a
    digit. *)
Definition clean_field (field : pystr) : Prop :=
  field = [] \/
  Forall (fun e => strict_email e /\ ends_alnum e) (split clean_emails.semicolon field).

Definition is_sleep (e : url_processor.event) : bool :=
  match e with
  | url_processor.Sleep => true
  | _ => false
  end.

(** Two rows of the batch agree on every column but the emails column;
    [row_kept] adds that the second has the keys of the first when the
    emails column is among them. *)
Definition same_columns (r r' : batch.row) : Prop :=
  forall k, k <> batch.emails_key -> batch.dict_lookup r' k = batch.dict_lookup r k.

Definition row_kept (r r' : batch.row) : Prop :=
  same_columns r r' /\ (batch.emails_key ∈ r.*1 -> r'.*1 = r.*1).



(** The row has a URL in the column [col]. *)
Definition url_set (col : pystr) (r : batch.row) : bool :=
  batch.truthy (default None (batch.dict_lookup r col)).

(** The columns of the output of the batch: those of the first row of the
    input, and the emails column after them if it is not among them. *)
Definition output_columns (first : batch.row) : list pystr :=
  if bool_decide (batch.emails_key ∈ first.*1) then first.*1
  else first.*1 ++ [batch.emails_key].

(** The message of an SMTP session: recipient, subject and body. *)
Definition smtp_message (e : email_sender.event) : option (pystr * pystr * pystr) :=
  match e with
  | email_sender.Smtp _ _ _ to_email subject body => Some (to_email, subject, body)
  | _ => None
  end.

Definition is_pause (e : email_sender.event) : bool :=
  match e with
  | email_sender.Sleep => true
  | _ => false
  end.

(** The addresses of a row: the pieces of its emails value between the
    semicolons, stripped, the empty ones left out. *)
Definition recipients (r : email_sender.row) : list pystr :=
  filter (fun e => e <> [])
    (email_sender.strip <$>
       split (chr ";")
         (default [] (email_sender.dict_get r email_sender.emails_key (Some [])))).

(** The messages a row asks for: one per address, with the rendered
    template as body. *)
Definition row_messages (template subject : pystr) (r : email_sender.row)
  : list (pystr * pystr * pystr) :=
  (fun e => (e, subject, email_sender.render template r)) <$> recipients r.

(** The sessions that go through among the [m] sessions numbered from
    [a]. *)
Definition successes (M : email_sender.Mail) (a m : nat) : nat :=
  length (filter (fun k => email_sender.smtp_session M k = true) (seq a m)).

(** From state [st] to state [st'] the loop has sent the messages [msgs]:
    one session, one sleep and one count of the outcome for each. *)
Definition advanced (M : email_sender.Mail) (st st' : email_sender.sending)
  (msgs : list (pystr * pystr * pystr)) : Prop :=
  omap smtp_message (email_sender.log st')
    = omap smtp_message (email_sender.log st) ++ msgs /\
  email_sender.sessions st' = (email_sender.sessions st + length msgs)%nat /\
  email_sender.sent_count st'
    = (email_sender.sent_count st
       + successes M (email_sender.sessions st) (length msgs))%nat /\
  length (filter (fun e => is_pause e = true) (email_sender.log st'))
    = (length (filter (fun e => is_pause e = true) (email_sender.log st))
       + length msgs)%nat.

(** The port [send_email] uses when it is given none: 587 if [SMTP_PORT]
    is not set, else what [int] makes of it. *)
Definition env_port (M : email_sender.Mail) (env : email_sender.environ) : option Z :=
  match email_sender.SMTP_PORT env with
  | Some s => email_sender.py_int M s
  | None => Some 587%Z
  end.

(** ** Sample inputs *)

(** A complete configuration, and a world in which the template can be
    read, [int] knows the port of the sample and every second session
    fails. *)
Definition full_environ : email_sender.environ :=
  {| email_sender.SMTP_FROM_EMAIL := Some (lit "me@shop.test");
     email_sender.SMTP_SERVER := Some (lit "smtp.shop.test");
     email_sender.SMTP_PORT := Some (lit "2525");
     email_sender.SMTP_USERNAME := Some (lit "me");
     email_sender.SMTP_PASSWORD := Some (lit "secret") |}.

Definition flaky_mail : email_sender.Mail :=
  {| email_sender.read_file := fun _ => Some (lit "Hello {{name}}");
     email_sender.py_int := fun s =>
       if bool_decide (s = lit "2525") then Some 2525%Z else None;
     email_sender.smtp_session := Nat.even |}.

Definition mail_rows : list email_sender.row :=
  [ [(lit "name", Some (lit "Bob")); (lit "emails", Some (lit "bob@shop.test; b@x.io;"))];
    [(lit "name", Some (lit "Eve")); (lit "emails", Some (lit " eve@shop.test"))] ].

(** The same configuration with a port that is no number. *)
Definition bad_port_environ : email_sender.environ :=
  {| email_sender.SMTP_FROM_EMAIL := Some (lit "me@shop.test");
     email_sender.SMTP_SERVER := Some (lit "smtp.shop.test");
     email_sender.SMTP_PORT := Some (lit "smtp");
     email_sender.SMTP_USERNAME := Some (lit "me");
     email_sender.SMTP_PASSWORD := Some (lit "secret") |}.


(** A web in which every URL is valid and the first request of a call is
    answered by a page with one address in its text and three links; the
    later requests fail. *)
Definition shop_page : url_processor.soup :=
  {| url_processor.soup_text := lit "Contact us at hello@firm.io!";
     url_processor.soup_links :=
       [ {| url_processor.href_attr := Some (lit "mailto:info@shop.test?subject=hi");
            url_processor.get_text := lit "Write to us" |};
         {| url_processor.href_attr := Some (lit "/contact");
            url_processor.get_text := lit "Contact" |};
         {| url_processor.href_attr := Some (lit "/about");
            url_processor.get_text := lit "Us" |};
         {| url_processor.href_attr := Some (lit "contact.html");
            url_processor.get_text := lit "More" |} ] |}.

Definition shop_web : url_processor.Web :=
  {| url_processor.validators_url := fun _ => true;
     url_processor.requests_get := fun n _ =>
       match n with
       | O => url_processor.Response 200 shop_page
       | _ => url_processor.HttpError
       end |}.

(** A table of the batch in which no row has a URL. *)
Definition idle_rows : list batch.row :=
  [ [(lit "name", Some (lit "A")); (lit "url", Some [])];
    [(lit "name", Some (lit "B")); (lit "url", None)] ].


Definition shop_scraping : batch.Scraping :=
  {| batch.web_of := fun _ => shop_web;
     batch.list_of := elements |}.

(** A row whose second value is the name of its first column. *)
Definition nested_row : email_sender.row :=
  [(lit "b", Some (lit "X")); (lit "a", Some (lit "b"))].

(** [Hello {{name}}, welcome to {{city}}}!], piece by piece. *)
Definition greeting_template : list piece :=
  [Text (lit "Hello "); Hole (lit "name"); Text (lit ", welcome to ");
   Hole (lit "city"); Text (lit "}!")].

(** A row with values that hold no placeholder, but opening braces. *)
Definition braces_row : email_sender.row :=
  [(lit "b", Some (lit "X")); (lit "a", Some (lit "{{b")); (lit "c", Some (lit "}}"))].

Definition greeting_row : email_sender.row :=
  [(lit "name", Some (lit "Bob")); (lit "emails", Some (lit "bob@shop.test"))].

(** No variable is set, no file can be read, no session goes through. *)
Definition empty_environ : email_sender.environ :=
  {| email_sender.SMTP_FROM_EMAIL := None;
     email_sender.SMTP_SERVER := None;
     email_sender.SMTP_PORT := None;
     email_sender.SMTP_USERNAME := None;
     email_sender.SMTP_PASSWORD := None |}.

Definition silent_mail : email_sender.Mail :=
  {| email_sender.read_file := fun _ => Some (lit "Hello {{name}}");
     email_sender.py_int := fun _ => None;
     email_sender.smtp_session := fun _ => false |}.

(** [<a href="mailto:info@shop.test?subject=hi">Write to us</a>] *)
Definition mailto_link : url_processor.anchor :=
  {| url_processor.href_attr := Some (lit "mailto:info@shop.test?subject=hi");
     url_processor.get_text := lit "Write to us" |}.

(** [<a href="/info">About us</a>] *)
Definition about_link : url_processor.anchor :=
  {| url_processor.href_attr := Some (lit "/info");
     url_processor.get_text := lit "About us" |}.

(** A world in which a URL is valid when it starts with one of the schemes
    [http://], [https://] and [ftp://], as [validators.url] asks of it, and
    in which no server answers. *)
Definition offline_web : url_processor.Web :=
  {| url_processor.validators_url := fun url =>
       startswith url (lit "http://") || startswith url (lit "https://") ||
       startswith url (lit "ftp://");
     url_processor.requests_get := fun _ _ => url_processor.HttpError |}.

(** A row whose emails field needs no cleaning. *)
Definition tidy_row : clean_emails.csv_row :=
  [lit "http://a.test"; lit "a@b.com;c@d.io"].

(** A table of two data rows: the second is too short to reach the emails
    column. *)
Definition sample_table : list clean_emails.csv_row :=
  [ [lit "url"; lit "emails"];
    [lit "http://a.test"; lit "a@b.com; not-an-email; c@d.io"];
    [lit "http://b.test"] ].

Definition sample_cleaned : clean_emails.cleaning :=
  {| clean_emails.cleaned_data :=
       [ [lit "url"; lit "emails"];
         [lit "http://a.test"; lit "a@b.com;c@d.io"] ];
     clean_emails.total_emails_before := 3;
     clean_emails.total_emails_after := 2 |}.

(** Replace the code point of each ASCII character by its number. *)
Ltac code_points :=
  repeat match goal with
         | |- context [chr ?a] =>
             let v := eval vm_compute in (chr a) in change (chr a) with v
         end.

(** ** The matcher *)

Section Matcher.
Context `{U : UnicodeDB}.

Lemma span_length p cap s : (span p cap s <= length s)%nat.
Proof.
  revert cap; induction s as [|c s IH]; intros [[|h]|]; simpl; try lia;
    destruct (p c); simpl; try lia.
  - specialize (IH (Some h)). simpl in IH. lia.
  - specialize (IH None). simpl in IH. lia.
Qed.

Lemma span_cap p h s : (span p (Some h) s <= h)%nat.
Proof.
  revert h; induction s as [|c s IH]; intros [|h]; simpl; try lia.
  destruct (p c); [|lia]. specialize (IH h). lia.
Qed.

Lemma span_all p cap s n :
  (n <= span p cap s)%nat -> Forall (fun c => p c = true) (take n s).
Proof.
  revert cap n; induction s as [|c s IH]; intros cap n Hn.
  - rewrite take_nil. constructor.
  - destruct n as [|n]; [constructor|].
    assert (Hc : p c = true /\ exists cap', (n <= span p cap' s)%nat).
    { destruct cap as [[|h]|]; simpl in Hn; try lia;
        destruct (p c); try lia; split; auto; eexists; apply le_S_n, Hn. }
    destruct Hc as [Hc [cap' Hcap]]. simpl. constructor; eauto.
Qed.

Lemma backtrack_sound k lo n e :
  backtrack k lo n = Some e ->
  exists m e', (lo <= m <= n)%nat /\ k m = Some e' /\ e = (m + e')%nat.
Proof.
  induction n as [|n IH]; simpl.
  - destruct (Nat.ltb_spec 0 lo); [discriminate|].
    destruct (k O) as [e'|] eqn:Hk; [|discriminate].
    intros [= <-]. exists O, e'. repeat split; auto; lia.
  - destruct (Nat.ltb_spec (S n) lo); [discriminate|].
    destruct (k (S n)) as [e'|] eqn:Hk.
    + intros [= <-]. exists (S n), e'. repeat split; auto; lia.
    + intros Hb. destruct (IH Hb) as (m & e' & Hm & Hkm & ->).
      exists m, e'. repeat split; auto; lia.
Qed.

(** A match of [r] at the start of [s] covers a prefix of [s] that has the
    shape of [r]. *)
Lemma match_here_sound r prev s len :
  match_here r prev s = Some len ->
  (len <= length s)%nat /\ shape r (take len s).
Proof.
  revert prev s len; induction r as [|a r IH]; intros prev s len; simpl.
  - intros [= <-]. split; [lia|]. by rewrite take_0.
  - destruct a as [cls lo hi|].
    + intros Hb. apply backtrack_sound in Hb as (m & e & Hm & Hk & ->).
      apply IH in Hk as [Hlen Hshape].
      rewrite length_drop in Hlen.
      pose proof (span_length (in_class cls) hi s) as Hspan.
      split; [lia|].
      exists (take m s), (take e (drop m s)). repeat split.
      * by rewrite take_take_drop.
      * apply (span_all _ hi). lia.
      * rewrite length_take. lia.
      * destruct hi as [h|]; simpl; [|done].
        pose proof (span_cap (in_class cls) h s). rewrite length_take. lia.
      * done.
    + destruct (at_boundary prev (head s)); [|discriminate]. apply IH.
Qed.

(** [re.search] returns a span inside the string, and the code points of
    the span have the shape of the pattern. *)
Lemma search_from_sound r pos prev s start len :
  search_from r pos prev s = Some (start, len) ->
  exists i, start = (pos + i)%nat /\ (i + len <= length s)%nat /\
            shape r (take len (drop i s)).
Proof.
  revert pos prev; induction s as [|c s IH]; intros pos prev; simpl.
  - destruct (match_here r prev []) as [l|] eqn:Hm; [|discriminate].
    intros [= <- <-]. apply match_here_sound in Hm as [? ?].
    exists O. rewrite drop_0. repeat split; auto; lia.
  - destruct (match_here r prev (c :: s)) as [l|] eqn:Hm.
    + intros [= <- <-]. apply match_here_sound in Hm as [? ?].
      exists O. rewrite drop_0. repeat split; auto; lia.
    + intros Hs. apply IH in Hs as (i & -> & Hi & Hshape).
      exists (S i). simpl. repeat split; auto; lia.
Qed.

Lemma re_search_sound r s start len :
  re_search r s = Some (start, len) ->
  (start + len <= length s)%nat /\ shape r (take len (drop start s)).
Proof.
  intros Hs. apply search_from_sound in Hs as (i & -> & ? & ?). simpl. auto.
Qed.

End Matcher.

(** The matcher on the examples of the specification. *)
Example findall_drops_trailing_punctuation `{U : UnicodeDB} :
  re_findall url_processor.EMAIL_REGEX (lit "Contact us at hello@firm.io!")
    = [lit "hello@firm.io"].
Proof. vm_compute. reflexivity. Qed.

Example clean_list_drops_invalid_entry `{U : UnicodeDB} :
  join [clean_emails.semicolon]
    (clean_emails.clean_list
       (split clean_emails.semicolon (lit "a@b.com; not-an-email; c@d.io")))
    = lit "a@b.com;c@d.io".
Proof. vm_compute. reflexivity. Qed.

Example clean_email_backs_off_to_boundary `{U : UnicodeDB} :
  clean_emails.clean_email (lit "x.y@dom-a.infox_") = [] /\
  clean_emails.clean_email (lit "bob@shop.test.") = lit "bob@shop.test".
Proof. split; vm_compute; reflexivity. Qed.

(** ** The strict validator *)

Section CleanEmail.
Context `{U : UnicodeDB}.
Import clean_emails.

Lemma single_run a u :
  length u = 1%nat -> Forall (fun c => in_class [Single a] c = true) u ->
  u = [chr a].
Proof.
  destruct u as [|c [|? ?]]; try discriminate. intros _ Hu.
  apply Forall_cons in Hu as [Hc _]. simpl in Hc.
  rewrite orb_false_r in Hc. by apply N.eqb_eq in Hc as ->.
Qed.

Lemma local_part_spec c : in_class local_part c = true -> spec_local_char c = true.
Proof.
  unfold spec_local_char, ascii_alnum, in_class, local_part, existsb, in_item.
  code_points. intros Hc.
  repeat (apply orb_true_iff in Hc as [Hc|Hc]); try discriminate;
    try (rewrite Hc; rewrite ?orb_true_r; reflexivity);
    apply N.eqb_eq in Hc as ->; reflexivity.
Qed.

Lemma label_spec c : in_class label c = true -> spec_label_char c = true.
Proof.
  unfold spec_label_char, ascii_alnum, in_class, label, existsb, in_item.
  code_points. intros Hc.
  repeat (apply orb_true_iff in Hc as [Hc|Hc]); try discriminate;
    try (rewrite Hc; rewrite ?orb_true_r; reflexivity);
    apply N.eqb_eq in Hc as ->; reflexivity.
Qed.

Lemma shape_strict w : shape EMAIL_REGEX w -> strict_email w.
Proof.
  cbn. intros (loc & v1 & -> & Hloc & Hn1 & _ &
               at_ & v2 & -> & Hat & Hat1 & Hat2 &
               dom & v3 & -> & Hdom & Hn3 & _ &
               dot & v4 & -> & Hdot & Hdot1 & Hdot2 &
               tld & v5 & -> & Htld & Hlo & Hhi & ->).
  rewrite (single_run "@" at_), (single_run "." dot) by (auto; lia).
  exists loc, dom, tld. rewrite app_nil_r. repeat split; try lia.
  - intros ->. simpl in Hn1. lia.
  - eapply Forall_impl; [exact Hloc|]. apply local_part_spec.
  - intros ->. simpl in Hn3. lia.
  - eapply Forall_impl; [exact Hdom|]. apply label_spec.
  - eapply Forall_impl; [exact Htld|]. apply label_spec.
Qed.

Lemma clean_email_shape s :
  clean_email s = [] \/ shape EMAIL_REGEX (clean_email s).
Proof.
  unfold clean_email. destruct (re_search EMAIL_REGEX s) as [[start len]|] eqn:Hs.
  - right. by apply re_search_sound in Hs as [_ Hshape].
  - by left.
Qed.

(** The result of [clean_email] is the empty string or a string of the
    group of the strict pattern: a local part over [A-Za-z0-9_.+-], an [@],
    one domain label over [A-Za-z0-9-], a dot and a top-level label of 2 to
    6 code points.  (The [\b] of the pattern held in the argument, not in
    the result.) *)
Lemma clean_email_empty_or_strict (s : pystr) :
  clean_email s = [] \/ strict_email (clean_email s).
Proof.
  destruct (clean_email_shape s) as [?|?]; [by left|]. right. by apply shape_strict.
Qed.

(** C10: the result of [clean_email] is a contiguous substring of its
    argument (the empty one when nothing matches): no code point is
    invented, reordered or brought together from separate places. *)
Theorem clean_email_substring (s : pystr) :
  clean_email s = [] \/ substring (clean_email s) s.
Proof.
  unfold clean_email. destruct (re_search EMAIL_REGEX s) as [[start len]|]; [|by left].
  right. exists (take start s), (drop len (drop start s)).
  by rewrite take_drop, take_drop.
Qed.

(** A string that the strict pattern matches in full ends with a word
    character. *)
Lemma full_match_ends_with_word w :
  full_match EMAIL_REGEX w -> exists c, last w = Some c /\ is_word c = true.
Proof.
  unfold full_match. cbn.
  intros (loc & v1 & -> & _ & _ & _ &
          at_ & v2 & -> & _ & _ & _ &
          dom & v3 & -> & _ & _ & _ &
          dot & v4 & -> & _ & _ & _ &
          tld & v5 & -> & _ & Hlo & _ & Hbound & ->).
  destruct tld as [|c tld _] using rev_ind; [simpl in Hlo; lia|].
  rewrite last_snoc in Hbound. simpl in Hbound.
  exists c. split.
  - rewrite app_nil_r, !app_assoc. apply last_snoc.
  - unfold at_boundary in Hbound. simpl in Hbound. by destruct (is_word c).
Qed.

(** C1: on [bob@shop.test-ing] the strict validator returns
    [bob@shop.test-], cut in the middle of the last label: the pattern found
    its word boundary between the hyphen and the [i].  The strict pattern
    does not match the returned string in full (no word boundary follows its
    final hyphen), and cleaning it again gives another string.  The result
    is a partial value, where the claim has none. *)
Theorem clean_email_result_is_cut_at_hyphen :
  clean_email (lit "bob@shop.test-ing") = lit "bob@shop.test-" /\
  ~ full_match EMAIL_REGEX (lit "bob@shop.test-") /\
  clean_email (lit "bob@shop.test-") = lit "bob@shop.test".
Proof.
  split; [vm_compute; reflexivity|]. split; [|vm_compute; reflexivity].
  intros Hfull. apply full_match_ends_with_word in Hfull as (c & Hlast & Hword).
  change (last (lit "bob@shop.test-")) with (Some (chr "-")) in Hlast.
  injection Hlast as <-. discriminate.
Qed.

End CleanEmail.

(** ** Splitting and joining *)

Lemma split_no_sep sep p : sep ∉ p -> split sep p = [p].
Proof.
  induction p as [|c p IH]; simpl; [done|]. intros Hp.
  apply not_elem_of_cons in Hp as [Hc Hp].
  destruct (N.eqb_spec c sep); [congruence|]. by rewrite IH.
Qed.

Lemma split_app_sep sep p rest :
  sep ∉ p -> split sep (p ++ sep :: rest) = p :: split sep rest.
Proof.
  induction p as [|c p IH]; simpl; intros Hp.
  - by rewrite N.eqb_refl.
  - apply not_elem_of_cons in Hp as [Hc Hp].
    destruct (N.eqb_spec c sep); [congruence|]. by rewrite IH.
Qed.

Lemma split_join sep l :
  l <> [] -> Forall (fun p => sep ∉ p) l -> split sep (join [sep] l) = l.
Proof.
  induction l as [|p l IH]; [done|]. intros _ Hl.
  apply Forall_cons in Hl as [Hp Hl]. destruct l as [|q l].
  - simpl. by apply split_no_sep.
  - change (join [sep] (p :: q :: l)) with (p ++ sep :: join [sep] (q :: l)).
    rewrite split_app_sep by done. by rewrite IH.
Qed.

Lemma join_nonempty sep p l : p <> [] -> join sep (p :: l) <> [].
Proof. destruct p; [done|]. by destruct l. Qed.

(** ** The cleaning pass *)

Section Cleaning.
Context `{U : UnicodeDB}.
Import clean_emails.

Lemma strict_email_no_semicolon w : strict_email w -> semicolon ∉ w.
Proof.
  intros (loc & dom & tld & -> & _ & Hloc & _ & Hdom & _ & Htld).
  assert (Hl : forall c, spec_local_char c = true -> c <> semicolon)
    by (intros c Hc ->; discriminate).
  assert (Hd : forall c, spec_label_char c = true -> c <> semicolon)
    by (intros c Hc ->; discriminate).
  rewrite !elem_of_app, !list_elem_of_singleton, !Forall_forall in *.
  intros [?|[?|[?|[?|?]]]]; try discriminate.
  - by eapply Hl; eauto.
  - by eapply Hd; eauto.
  - by eapply Hd; eauto.
Qed.

Lemma clean_email_no_semicolon s : semicolon ∉ clean_email s.
Proof.
  destruct (clean_email_shape s) as [->|Hs].
  - apply not_elem_of_nil.
  - by apply strict_email_no_semicolon, shape_strict.
Qed.

Lemma clean_list_length l : (length (clean_list l) <= length l)%nat.
Proof.
  induction l as [|e l IH]; simpl; [lia|].
  destruct (truthy (clean_email e)); simpl; lia.
Qed.

Lemma clean_list_pieces l :
  Forall (fun p => p <> [] /\ semicolon ∉ p) (clean_list l).
Proof.
  induction l as [|e l IH]; simpl; [constructor|].
  destruct (clean_email e) as [|c w] eqn:He; simpl; [done|].
  constructor; [|done]. split; [done|]. rewrite <- He.
  apply clean_email_no_semicolon.
Qed.

(** The addresses counted in the rewritten field are the cleaned ones. *)
Lemma count_join_clean_list l :
  count_emails (join [semicolon] (clean_list l)) = length (clean_list l).
Proof.
  pose proof (clean_list_pieces l) as Hl.
  destruct (clean_list l) as [|p k] eqn:Hk; [done|].
  unfold count_emails.
  destruct (join [semicolon] (p :: k)) eqn:Hj.
  - apply Forall_cons in Hl as [[Hp _] _]. by apply join_nonempty in Hj.
  - rewrite <- Hj, split_join; [done|done|].
    eapply Forall_impl; [exact Hl|]. by intros ? [_ ?].
Qed.

(** A row that reaches the emails column is kept, with the field at that
    column rewritten and the counts taken from the two fields. *)
Lemma clean_row_kept idx row :
  (0 <= idx < Z.of_nat (length row))%Z ->
  exists old_field new_field,
    row !! Z.to_nat idx = Some old_field /\
    clean_row idx row =
      Kept (<[Z.to_nat idx := new_field]> row)
           (count_emails old_field) (count_emails new_field) /\
    (count_emails new_field <= count_emails old_field)%nat.
Proof.
  intros Hidx. unfold clean_row, py_index.
  destruct (Z.leb_spec (Z.of_nat (length row)) idx); [lia|].
  destruct (Z.leb_spec 0 idx); [|lia].
  destruct (Z.ltb_spec idx (Z.of_nat (length row))); [|lia]. simpl.
  destruct (lookup_lt_is_Some_2 row (Z.to_nat idx)) as [old Hold]; [lia|].
  rewrite Hold. destruct old as [|c old].
  - exists [], []. simpl. by rewrite list_insert_id.
  - exists (c :: old), (join [semicolon] (clean_list (split semicolon (c :: old)))).
    rewrite count_join_clean_list. split; [done|]. split; [done|].
    apply clean_list_length.
Qed.

Lemma clean_row_short idx row :
  (Z.of_nat (length row) <= idx)%Z -> clean_row idx row = Skipped.
Proof.
  intros Hidx. unfold clean_row.
  by destruct (Z.leb_spec (Z.of_nat (length row)) idx); [|lia].
Qed.

Lemma email_col_idx_nonneg header : header <> [] -> (0 <= email_col_idx header)%Z.
Proof.
  intros Hh. unfold email_col_idx.
  destruct (find_email_col 0 header); [lia|]. destruct header; [done|]. simpl. lia.
Qed.

(** What a kept row says about the two fields at the emails column. *)
Lemma clean_row_inv idx row new_row before after :
  clean_row idx row = Kept new_row before after ->
  exists j old_field new_field,
    row !! j = Some old_field /\ new_row !! j = Some new_field /\
    before = count_emails old_field /\ after = count_emails new_field /\
    (after <= before)%nat.
Proof.
  unfold clean_row.
  destruct (Z.of_nat (length row) <=? idx)%Z; [discriminate|].
  destruct (py_index row idx) as [j|]; [|discriminate].
  destruct (row !! j) as [old|] eqn:Hold; [|discriminate].
  destruct old as [|c old]; simpl.
  - intros [= <- <- <-]. exists j, [], []. repeat split; auto.
  - intros [= <- <- <-].
    exists j, (c :: old), (join [semicolon] (clean_list (split semicolon (c :: old)))).
    rewrite count_join_clean_list. split; [done|]. split.
    { apply list_lookup_insert_eq. by apply lookup_lt_Some in Hold. }
    split; [done|]. split; [done|]. apply clean_list_length.
Qed.

Lemma clean_rows_totals idx rows st st' :
  clean_rows idx rows st = Some st' ->
  (total_emails_after st <= total_emails_before st)%nat ->
  (total_emails_after st' <= total_emails_before st')%nat.
Proof.
  revert st; induction rows as [|row rows IH]; simpl; intros st.
  - by intros [= <-].
  - destruct (clean_row idx row) as [|new_row b a|] eqn:Hrow; [apply IH| |done].
    intros Hrows Hst. apply IH in Hrows; [done|]. simpl.
    apply clean_row_inv in Hrow as (_ & _ & _ & _ & _ & _ & _ & Hab). lia.
Qed.

(** With a column index that is not negative the loop ends normally; it
    appends one row for every row that reaches the column, in order. *)
Lemma clean_rows_keeps idx rows st :
  (0 <= idx)%Z ->
  exists st' out,
    clean_rows idx rows st = Some st' /\
    cleaned_data st' = cleaned_data st ++ out /\
    Forall2 (same_but_emails idx)
            (filter (fun row => (idx < Z.of_nat (length row))%Z) rows) out.
Proof.
  intros Hidx. revert st; induction rows as [|row rows IH]; intros st.
  - exists st, []. simpl. rewrite app_nil_r. repeat split; constructor.
  - simpl. rewrite filter_cons. case_decide as Hlen.
    + destruct (clean_row_kept idx row) as (old & new & Hold & -> & _); [lia|].
      edestruct IH as (st' & out & -> & Hout & Hall).
      eexists st', (_ :: out). split; [done|]. split.
      { rewrite Hout. simpl. by rewrite <- app_assoc. }
      constructor; [|done]. split; [by rewrite length_insert|].
      intros j Hj. apply list_lookup_insert_ne. lia.
    + rewrite clean_row_short by lia. apply IH.
Qed.

End Cleaning.

(** C2: in a cleaning pass that writes its output, every row processed
    has at most as many addresses after cleaning as candidates before, the
    two counts being those of the emails field of the row before and after;
    and the total after is at most the total before. *)
Theorem cleaning_never_increases `{U : UnicodeDB} header rows st :
  clean_emails.clean_emails_file (Some (header :: rows)) = clean_emails.Written st ->
  (clean_emails.total_emails_after st <= clean_emails.total_emails_before st)%nat /\
  forall row new_row before after,
    row ∈ rows ->
    clean_emails.clean_row (clean_emails.email_col_idx header) row
      = clean_emails.Kept new_row before after ->
    (after <= before)%nat /\
    exists j old_field new_field,
      row !! j = Some old_field /\ new_row !! j = Some new_field /\
      before = count_emails old_field /\ after = count_emails new_field.
Proof.
  unfold clean_emails.clean_emails_file.
  destruct (clean_emails.clean_rows _ rows _) as [st'|] eqn:Hrows; [|done].
  intros [= <-]. split.
  - apply clean_rows_totals in Hrows; [done|]. simpl. lia.
  - intros row new_row b a _ Hrow.
    apply clean_row_inv in Hrow as (j & old & new & ? & ? & ? & ? & ?).
    split; [done|]. by exists j, old, new.
Qed.

Lemma cleaning_never_increases_witness :
  clean_emails.clean_emails_file (U := plain_db) (Some sample_table)
    = clean_emails.Written sample_cleaned /\
  (clean_emails.total_emails_after sample_cleaned
     <= clean_emails.total_emails_before sample_cleaned)%nat.
Proof.
  split; [vm_compute; reflexivity|].
  apply (cleaning_never_increases (U := plain_db)
           [lit "url"; lit "emails"] (tail sample_table) sample_cleaned).
  vm_compute; reflexivity.
Defined.

(** C4, the claim as stated fails: the second data row of the sample table
    has no field at the emails column, and no row of the output stands for
    it. *)
Lemma cleaning_drops_short_row :
  clean_emails.clean_emails_file (U := plain_db) (Some sample_table)
    = clean_emails.Written sample_cleaned /\
  length (clean_emails.cleaned_data sample_cleaned) = 2%nat /\
  length sample_table = 3%nat /\
  [lit "http://b.test"] ∈ sample_table /\
  forall new_row, new_row ∈ clean_emails.cleaned_data sample_cleaned ->
                  new_row !! O <> Some (lit "http://b.test").
Proof.
  split; [vm_compute; reflexivity|]. split; [reflexivity|].
  split; [reflexivity|]. split.
  - unfold sample_table. set_solver.
  - intros new_row Hin. unfold sample_cleaned in Hin. simpl in Hin.
    apply elem_of_cons in Hin as [-> |Hin]; [discriminate|].
    apply list_elem_of_singleton in Hin as ->. discriminate.
Qed.

(** C4, amended: under a header that is not empty the cleaning pass writes
    its output, and the output has, after the header and in the order of the
    input, one row for every data row that has a field at the emails column:
    as many fields, and the same field everywhere but at that column.  Data
    rows too short to reach the column are left out. *)
Theorem cleaning_keeps_rows_with_column `{U : UnicodeDB} header rows :
  header <> [] ->
  exists st out,
    clean_emails.clean_emails_file (Some (header :: rows)) = clean_emails.Written st /\
    clean_emails.cleaned_data st = header :: out /\
    Forall2 (same_but_emails (clean_emails.email_col_idx header))
      (filter (fun row => (clean_emails.email_col_idx header
                           < Z.of_nat (length row))%Z) rows)
      out.
Proof.
  intros Hh. unfold clean_emails.clean_emails_file.
  edestruct (clean_rows_keeps (clean_emails.email_col_idx header) rows)
    as (st & out & -> & Hdata & Hall); [by apply email_col_idx_nonneg|].
  by exists st, out.
Qed.

Lemma cleaning_keeps_rows_with_column_witness :
  [lit "url"; lit "emails"] <> [] /\
  exists st out,
    clean_emails.clean_emails_file (U := plain_db) (Some sample_table)
      = clean_emails.Written st /\
    clean_emails.cleaned_data st = [lit "url"; lit "emails"] :: out /\
    Forall2 (same_but_emails
               (clean_emails.email_col_idx (U := plain_db) [lit "url"; lit "emails"]))
      (filter (fun row => (clean_emails.email_col_idx (U := plain_db)
                             [lit "url"; lit "emails"]
                           < Z.of_nat (length row))%Z) (tail sample_table))
      out.
Proof.
  split; [discriminate|].
  apply (cleaning_keeps_rows_with_column (U := plain_db)
           [lit "url"; lit "emails"] (tail sample_table)).
  discriminate.
Defined.

(** ** Prefixes and substrings *)

Lemma startswith_spec s p :
  startswith s p = true <-> exists rest, s = p ++ rest.
Proof.
  revert s; induction p as [|x p IH]; intros s.
  - split; [by exists s|by destruct s].
  - destruct s as [|c s]; simpl.
    + split; [done|]. by intros [rest ?].
    + rewrite andb_true_iff, N.eqb_eq, IH. split.
      * intros [-> [rest ->]]. by exists rest.
      * intros [rest [= -> ->]]. split; [done|]. by exists rest.
Qed.

Lemma contains_spec needle s :
  contains needle s = true <-> substring needle s.
Proof.
  split.
  - induction s as [|c s IH]; cbn [contains]; rewrite orb_true_iff.
    + intros [Hp|?]; [|done]. apply startswith_spec in Hp as [rest ->].
      by exists [], rest.
    + intros [Hp|Hc].
      * apply startswith_spec in Hp as [rest ->]. by exists [], rest.
      * destruct (IH Hc) as (pre & post & ->). by exists (c :: pre), post.
  - intros (pre & post & ->). induction pre as [|c pre IH].
    + assert (Hp : startswith (needle ++ post) needle = true)
        by (apply startswith_spec; by exists post).
      rewrite app_nil_l. revert Hp. generalize (needle ++ post). intros [|c k] Hp;
        cbn [contains]; by rewrite Hp.
    + cbn [contains app]. rewrite IH. apply orb_true_r.
Qed.

(** ** The scraper *)

Section Scraper.
Context `{U : UnicodeDB}.
Import url_processor.

Lemma harvest_mailto_spec links emails x :
  x ∈ harvest_mailto links emails <->
  x ∈ emails \/
  exists link, link ∈ links /\ get_href link = lit "mailto:" ++ x /\ chr "@" ∈ x.
Proof.
  revert emails; induction links as [|link links IH]; intros emails; simpl.
  - split; [by left|]. intros [?|(link & Hin & _)]; [done|].
    by apply elem_of_nil in Hin.
  - assert (Hstep : (exists l, l ∈ link :: links /\
                       get_href l = lit "mailto:" ++ x /\ chr "@" ∈ x) <->
                    (get_href link = lit "mailto:" ++ x /\ chr "@" ∈ x) \/
                    (exists l, l ∈ links /\
                       get_href l = lit "mailto:" ++ x /\ chr "@" ∈ x)).
    { split.
      - intros (l & Hin & Hl). apply elem_of_cons in Hin as [Heq|Hin].
        + subst l. by left.
        + right. by exists l.
      - intros [Hl|(l & Hin & Hl)].
        + exists link. split; [left|done].
        + exists l. split; [by right|done]. }
    rewrite Hstep. clear Hstep.
    destruct (startswith (get_href link) (lit "mailto:")) eqn:Hp.
    + apply startswith_spec in Hp as [rest Hrest]. rewrite Hrest.
      change (drop 7 (lit "mailto:" ++ rest)) with rest.
      case_bool_decide as Hat; rewrite IH.
      * rewrite elem_of_union, elem_of_singleton. split.
        -- intros [[?|Heq]|?]; [by left| |by right; right].
           subst x. right; left. done.
        -- intros [?|[[Heq ?]|?]]; [by left; left| |by right].
           left; right. by simplify_list_eq.
      * split.
        -- intros [?|?]; [by left|by right; right].
        -- intros [?|[[Heq ?]|?]]; [by left| |by right].
           by simplify_list_eq.
    + rewrite IH. split.
      * intros [?|?]; [by left|by right; right].
      * intros [?|[[Heq ?]|?]]; [by left| |by right].
        assert (startswith (get_href link) (lit "mailto:") = true)
          by (apply startswith_spec; by exists x).
        congruence.
Qed.

Lemma is_contact_link_spec link :
  is_contact_link link = true <->
  substring (lit "contact") (lower (get_href link)) \/
  substring (lit "contact") (lower (get_text link)) \/
  substring (lit "about") (lower (get_href link)) \/
  substring a_propos (lower (get_text link)).
Proof.
  unfold is_contact_link. rewrite !orb_true_iff, !contains_spec. tauto.
Qed.

Lemma find_contact_links_filter url links :
  find_contact_links url links =
  map (fun link => resolve url (get_href link))
      (filter (fun link => is_contact_link link = true) links).
Proof.
  induction links as [|link links IH]; simpl; [done|].
  rewrite filter_cons. destruct (is_contact_link link) eqn:Hl.
  - rewrite decide_True by done. simpl. by rewrite IH.
  - rewrite decide_False by done. done.
Qed.

End Scraper.

(** C3, the claim as stated fails: for the link
    [mailto:info@shop.test?subject=hi] the loop adds the address with its
    query string, and the bare address is not in the set. *)
Lemma mailto_keeps_query_string :
  url_processor.harvest_mailto [mailto_link] ∅
    = {[ lit "info@shop.test?subject=hi" ]} /\
  lit "info@shop.test" ∉ url_processor.harvest_mailto [mailto_link] ∅.
Proof.
  assert (Hset : url_processor.harvest_mailto [mailto_link] ∅
                 = {[ lit "info@shop.test?subject=hi" ]})
    by (vm_compute; reflexivity).
  split; [exact Hset|]. rewrite Hset. apply not_elem_of_singleton. discriminate.
Qed.

(** C3, amended: the loop over the links adds, for every link whose href
    starts with [mailto:], what follows these seven code points, whole and
    with its query string if it has one, provided it contains an [@]; it
    adds nothing else.  For [mailto:info@shop.test?subject=hi] the candidate
    is [info@shop.test?subject=hi]. *)
Theorem mailto_candidate_is_rest_of_href links emails x :
  (x ∈ url_processor.harvest_mailto links emails <->
   x ∈ emails \/
   exists link, link ∈ links /\
     url_processor.get_href link = lit "mailto:" ++ x /\ chr "@" ∈ x) /\
  lit "info@shop.test?subject=hi"
    ∈ url_processor.harvest_mailto (mailto_link :: links) emails.
Proof.
  split; [apply harvest_mailto_spec|].
  apply harvest_mailto_spec. right. exists mailto_link.
  split; [left|]. split; [reflexivity|].
  apply (bool_decide_unpack _). vm_compute. exact I.
Qed.

(** C5: the scheme is added after the validation, and so too late.  Where
    the validator asks for a scheme, as [validators.url] does, the call on
    [example.com] ends at the validation: nothing is prefixed and no GET is
    issued against [https://example.com].  The prefix reaches only URLs that
    are valid with another scheme: [ftp://example.com] is fetched as
    [https://ftp://example.com]. *)
Theorem scheme_is_added_after_validation `{U : UnicodeDB} :
  startswith (lit "example.com") (lit "http://") = false /\
  startswith (lit "example.com") (lit "https://") = false /\
  url_processor.extract_emails_from_url offline_web (lit "example.com")
    = (∅, [url_processor.PrintInvalidUrl (lit "example.com")]) /\
  snd (url_processor.extract_emails_from_url offline_web (lit "ftp://example.com"))
    = [url_processor.Get (lit "https://ftp://example.com") 10;
       url_processor.PrintAccessError (lit "https://ftp://example.com")].
Proof. repeat split; vm_compute; reflexivity. Qed.

(** What the code does in this order: the URL is validated as it is given.
    If it is not valid the call returns no address, prints one message and
    issues no request.  If it is valid the first event of the call is the
    GET, with a timeout of 10, against the URL itself when it starts with
    [http://] or [https://] and against the URL with [https://] before it
    otherwise. *)
Lemma fetch_validates_then_adds_scheme `{U : UnicodeDB}
  (W : url_processor.Web) (url : pystr) :
  if url_processor.validators_url W url then
    exists log,
      snd (url_processor.extract_emails_from_url W url) =
      url_processor.Get
        (if startswith url (lit "http://") || startswith url (lit "https://")
         then url else lit "https://" ++ url) 10 :: log
  else
    url_processor.extract_emails_from_url W url
      = (∅, [url_processor.PrintInvalidUrl url]).
Proof.
  unfold url_processor.extract_emails_from_url.
  destruct (url_processor.validators_url W url); simpl; [|done].
  fold (url_processor.add_scheme url).
  destruct (url_processor.requests_get W 0 _) as [|status page]; [by eexists|].
  destruct (status =? 200)%Z; [|by eexists].
  destruct (url_processor.visit_contacts _ _ _ _) as [emails log]. by eexists.
Qed.

(** C6, the claim as stated fails: the link [<a href="/info">About us</a>]
    has the keyword [about] in its text, and is not taken as a contact
    link. *)
Lemma about_in_text_is_not_contact_link :
  spec_contact_like (U := plain_db) about_link = true /\
  url_processor.is_contact_link (U := plain_db) about_link = false /\
  url_processor.find_contact_links (U := plain_db) (lit "https://shop.test") [about_link]
    = [].
Proof. repeat split; vm_compute; reflexivity. Qed.

(** C6, amended: a link is taken as a contact link exactly when [contact]
    occurs in its lowered href or in its lowered text, or [about] occurs in
    its lowered href, or the localized keyword occurs in its lowered text;
    the contact links are the resolved hrefs of these links, in order. *)
Theorem contact_link_keywords `{U : UnicodeDB} (url : pystr)
  (links : list url_processor.anchor) (link : url_processor.anchor) :
  (url_processor.is_contact_link link = true <->
   substring (lit "contact") (lower (url_processor.get_href link)) \/
   substring (lit "contact") (lower (url_processor.get_text link)) \/
   substring (lit "about") (lower (url_processor.get_href link)) \/
   substring url_processor.a_propos (lower (url_processor.get_text link))) /\
  url_processor.find_contact_links url links =
  map (fun link => url_processor.resolve url (url_processor.get_href link))
      (filter (fun link => url_processor.is_contact_link link = true) links).
Proof.
  split; [apply is_contact_link_spec|apply find_contact_links_filter].
Qed.

(** C7: the strict pattern matches [a@b.c1] from its first to its last code
    point, and [clean_email] returns it whole; the loose pattern matches
    nowhere in it.  The strict pattern is not within the loose one. *)
Theorem strict_accepts_what_loose_rejects `{U : UnicodeDB} :
  clean_emails.clean_email (lit "a@b.c1") = lit "a@b.c1" /\
  strict_email (lit "a@b.c1") /\
  re_search url_processor.EMAIL_REGEX (lit "a@b.c1") = None /\
  re_findall url_processor.EMAIL_REGEX (lit "a@b.c1") = [].
Proof.
  assert (Hc : clean_emails.clean_email (lit "a@b.c1") = lit "a@b.c1")
    by (vm_compute; reflexivity).
  split; [exact Hc|]. split; [|split; vm_compute; reflexivity].
  destruct (clean_email_shape (lit "a@b.c1")) as [He|Hs].
  - rewrite Hc in He. discriminate.
  - rewrite Hc in Hs. by apply shape_strict.
Qed.

(** ** The mailer *)

Section Mailer.
Import email_sender.

Lemma missing_not_truthy v : missing v -> truthy v = false.
Proof. by intros [-> | ->]. Qed.

Lemma replace_from_absent old new s :
  contains old s = false -> replace_from old new O s = s.
Proof.
  induction s as [|c s IH]; [done|]. cbn [contains replace_from].
  intros Hc. apply orb_false_iff in Hc as [Hp Hc]. rewrite Hp. by rewrite IH.
Qed.

(** Replacing a string that does not occur changes nothing. *)
Lemma replace_absent old new s :
  contains old s = false -> replace old new s = s.
Proof.
  destruct old as [|x old].
  - intros Hc. by destruct s.
  - apply replace_from_absent.
Qed.

Lemma render_items_absent items body :
  placeholder_free items body = true -> render_items items body = body.
Proof.
  unfold placeholder_free.
  induction items as [|[key value] items IH]; cbn [forallb render_items fst];
    [done|].
  intros Hfree. apply andb_true_iff in Hfree as [Hkey Hfree].
  apply orb_true_iff in Hkey as [Hkey|Hkey].
  - apply bool_decide_eq_true in Hkey.
    rewrite bool_decide_eq_false_2 by (by intros ?). by apply IH.
  - apply negb_true_iff in Hkey. rewrite replace_absent by done.
    destruct (bool_decide _); by apply IH.
Qed.

End Mailer.

(** C8: when one of the sender address, server, username and password is
    missing from the environment, [send_emails] returns 0 and its only
    event is one printed message: no SMTP session, no sleep and no attempt
    per address.  For a list of rows and a readable template the message is
    the one that explains the missing configuration. *)
Theorem missing_config_skips_batch (M : email_sender.Mail)
  (env : email_sender.environ) (emails_data : email_sender.pydata)
  (template_file subject : pystr) :
  missing (email_sender.SMTP_FROM_EMAIL env) \/
  missing (email_sender.SMTP_SERVER env) \/
  missing (email_sender.SMTP_USERNAME env) \/
  missing (email_sender.SMTP_PASSWORD env) ->
  exists msg,
    email_sender.send_emails M env emails_data template_file subject
      = (email_sender.Returned 0, [msg]) /\
    email_sender.is_print msg = true /\
    email_sender.is_network msg = false /\
    forall l rows template,
      emails_data = email_sender.DataList l ->
      mapM email_sender.as_dict l = Some rows ->
      email_sender.read_file M template_file = Some template ->
      msg = email_sender.PrintConfigMissing.
Proof.
  intros Hmiss.
  assert (Hall : email_sender.truthy (email_sender.SMTP_FROM_EMAIL env) &&
                 email_sender.truthy (email_sender.SMTP_SERVER env) &&
                 email_sender.truthy (email_sender.SMTP_USERNAME env) &&
                 email_sender.truthy (email_sender.SMTP_PASSWORD env) = false).
  { destruct Hmiss as [H|[H|[H|H]]]; apply missing_not_truthy in H; rewrite H;
      rewrite ?andb_false_r; reflexivity. }
  unfold email_sender.send_emails. destruct emails_data as [l|].
  - destruct (mapM email_sender.as_dict l) as [rows|] eqn:Hrows.
    + destruct (email_sender.read_file M template_file) as [template|] eqn:Hfile.
      * rewrite Hall. simpl. eexists. repeat split; done.
      * eexists. repeat split; [done..|]. intros; congruence.
    + eexists. repeat split; [done..|]. intros ? ? ? [= <-] ? ?; congruence.
  - eexists. repeat split; [done..|]. intros; congruence.
Qed.

Lemma missing_config_skips_batch_witness :
  (missing (email_sender.SMTP_FROM_EMAIL empty_environ) \/
   missing (email_sender.SMTP_SERVER empty_environ) \/
   missing (email_sender.SMTP_USERNAME empty_environ) \/
   missing (email_sender.SMTP_PASSWORD empty_environ)) /\
  exists msg,
    email_sender.send_emails silent_mail empty_environ
      (email_sender.DataList [email_sender.PyDict greeting_row])
      (lit "email_template.txt") (lit "Services")
      = (email_sender.Returned 0, [msg]) /\
    email_sender.is_print msg = true /\
    email_sender.is_network msg = false /\
    forall l rows template,
      email_sender.DataList [email_sender.PyDict greeting_row] = email_sender.DataList l ->
      mapM email_sender.as_dict l = Some rows ->
      email_sender.read_file silent_mail (lit "email_template.txt") = Some template ->
      msg = email_sender.PrintConfigMissing.
Proof.
  split; [left; left; reflexivity|].
  apply (missing_config_skips_batch silent_mail empty_environ).
  left; left; reflexivity.
Defined.

(** C9, the claim as stated fails: the values [X] and [b] of the row hold
    no brace, and so no placeholder; rendering [{{{{a}}}}] gives [{{b}}],
    and rendering that again gives [X]. *)
Lemma render_twice_differs :
  Forall (fun kv => brace_free kv.2) nested_row /\
  email_sender.render (lit "{{{{a}}}}") nested_row = lit "{{b}}" /\
  email_sender.render (email_sender.render (lit "{{{{a}}}}") nested_row) nested_row
    = lit "X".
Proof.
  split; [|split; vm_compute; reflexivity].
  unfold nested_row, brace_free. repeat constructor; simpl;
    apply (bool_decide_unpack _); vm_compute; exact I.
Qed.

(** * Further properties *)

(** ** The matcher finds what is there *)

Section MatcherFinds.
Context `{U : UnicodeDB}.

(** A run of the class that the cap allows and that ends where the class
    ends is what a greedy repetition takes first. *)
Lemma span_run p cap u rest :
  Forall (fun c => p c = true) u ->
  from_option (fun h => (length u <= h)%nat) True cap ->
  from_option (fun c => p c = false) True (head rest) ->
  span p cap (u ++ rest) = length u.
Proof.
  intros Hu. revert cap. induction Hu as [|x u Hx Hu IH]; intros cap Hcap Hrest.
  - destruct rest as [|c rest]; destruct cap as [[|h]|]; simpl in *;
      try done; by rewrite Hrest.
  - destruct cap as [[|h]|]; simpl in *; try lia; rewrite Hx; f_equal.
    + apply (IH (Some h)); simpl; [lia|done].
    + by apply (IH None).
Qed.

Lemma backtrack_first k lo n e :
  (lo <= n)%nat -> k n = Some e -> backtrack k lo n = Some (n + e)%nat.
Proof.
  intros Hlo Hk. destruct n; simpl; rewrite ?Hk.
  - by destruct (Nat.ltb_spec 0 lo); [lia|].
  - by destruct (Nat.ltb_spec (S n) lo); [lia|].
Qed.

Lemma prev_after_run prev (u rest : pystr) :
  prev_after (length u) prev (u ++ rest) = from_option Some prev (last u).
Proof.
  destruct u as [|x u] using rev_ind; [done|].
  rewrite length_app, Nat.add_1_r, last_snoc, <- app_assoc.
  by apply list_lookup_middle.
Qed.

(** A repetition followed by the rest of the pattern matches at the first
    attempt when the greedy run is followed by a match of the rest. *)
Lemma match_here_run cls lo hi r prev u rest e :
  Forall (fun c => in_class cls c = true) u ->
  (lo <= length u)%nat ->
  from_option (fun h => (length u <= h)%nat) True hi ->
  from_option (fun c => in_class cls c = false) True (head rest) ->
  match_here r (from_option Some prev (last u)) rest = Some e ->
  match_here (Rep cls lo hi :: r) prev (u ++ rest) = Some (length u + e)%nat.
Proof.
  intros Hu Hlo Hhi Hrest Hr. simpl.
  rewrite span_run by done. apply backtrack_first; [done|].
  by rewrite prev_after_run, drop_app_length.
Qed.

End MatcherFinds.

(** ** Valid addresses survive the cleaning *)

Section KeepsValid.
Context `{U : UnicodeDB}.
Import clean_emails.

Lemma alnum_in_classes c :
  ascii_alnum c = true ->
  in_class local_part c = true /\ in_class label c = true /\ is_word c = true.
Proof.
  unfold ascii_alnum, in_class, local_part, label, existsb, in_item, is_word.
  code_points. intros Hc.
  assert (Hlt : (c <? 128) = true).
  { apply N.ltb_lt. unfold in_range in Hc.
    repeat (apply orb_true_iff in Hc as [Hc|Hc]);
      apply andb_true_iff in Hc as [_ Hc]; apply N.leb_le in Hc; lia. }
  rewrite Hlt. unfold ascii_alnum.
  destruct (in_range 97 122 c), (in_range 65 90 c), (in_range 48 57 c);
    simpl in *; done.
Qed.

Lemma spec_local_in_class c :
  spec_local_char c = true -> in_class local_part c = true.
Proof.
  unfold spec_local_char. intros Hc. apply orb_true_iff in Hc as [Hc|Hc].
  - by apply alnum_in_classes.
  - apply bool_decide_eq_true in Hc. change (lit "_.+-") with [95; 46; 43; 45] in Hc.
    rewrite !elem_of_cons in Hc.
    destruct Hc as [-> |[-> |[-> |[-> |Hc]]]]; try reflexivity.
    by apply elem_of_nil in Hc.
Qed.

Lemma spec_label_in_class c :
  spec_label_char c = true -> in_class label c = true.
Proof.
  unfold spec_label_char. intros Hc. apply orb_true_iff in Hc as [Hc|Hc].
  - by apply alnum_in_classes.
  - by apply N.eqb_eq in Hc as ->.
Qed.

(** The code point after a run, when that run is followed by a list that
    is not empty. *)
Lemma head_app_Forall (P : N -> Prop) (l rest : pystr) :
  l <> [] -> Forall P l -> from_option P True (head (l ++ rest)).
Proof. destruct l; [done|]. intros _ Hl. by apply Forall_cons in Hl as [? _]. Qed.

Lemma strict_email_matches loc dom tld c prev :
  loc <> [] -> Forall (fun c => spec_local_char c = true) loc ->
  dom <> [] -> Forall (fun c => spec_label_char c = true) dom ->
  (2 <= length tld <= 6)%nat -> Forall (fun c => spec_label_char c = true) tld ->
  last tld = Some c -> ascii_alnum c = true ->
  match_here EMAIL_REGEX prev (loc ++ [chr "@"] ++ dom ++ [chr "."] ++ tld)
  = Some (length (loc ++ [chr "@"] ++ dom ++ [chr "."] ++ tld)).
Proof.
  intros Hloc0 Hloc Hdom0 Hdom Hlen Htld Hlast Hc.
  assert (Htld0 : tld <> []) by (intros ->; simpl in Hlen; lia).
  assert (H5 : forall p, match_here [Rep label 2 (Some 6%nat); Bound] p (tld ++ [])
                         = Some (length tld + 0)%nat).
  { intros p. apply match_here_run; simpl; try done; try lia.
    - eapply Forall_impl; [exact Htld|]. apply spec_label_in_class.
    - rewrite Hlast. simpl. unfold at_boundary. simpl.
      destruct (alnum_in_classes c Hc) as (_ & _ & Hw). by rewrite Hw. }
  rewrite app_nil_r in H5.
  assert (H4 : forall p, match_here [one "."; Rep label 2 (Some 6%nat); Bound] p
                           ([chr "."] ++ tld)
                         = Some (1 + (length tld + 0))%nat).
  { intros p. apply (match_here_run [Single "."] 1 (Some 1%nat)); simpl; try done.
    - by repeat constructor.
    - rewrite <- (app_nil_r tld).
      apply (head_app_Forall (fun c => in_class [Single "."] c = false));
        [done|].
      eapply Forall_impl; [exact Htld|]. intros x Hx. simpl.
      rewrite orb_false_r. apply N.eqb_neq. intros ->. discriminate.
    - apply H5. }
  assert (H3 : forall p, match_here
                           [plus label; one "."; Rep label 2 (Some 6%nat); Bound] p
                           (dom ++ [chr "."] ++ tld)
                         = Some (length dom + (1 + (length tld + 0)))%nat).
  { intros p. apply match_here_run; simpl; try done.
    - eapply Forall_impl; [exact Hdom|]. apply spec_label_in_class.
    - destruct dom; [done|]. simpl. lia.
    - apply H4. }
  assert (H2 : forall p, match_here
                           [one "@"; plus label; one "."; Rep label 2 (Some 6%nat); Bound]
                           p ([chr "@"] ++ dom ++ [chr "."] ++ tld)
                         = Some (1 + (length dom + (1 + (length tld + 0))))%nat).
  { intros p. apply (match_here_run [Single "@"] 1 (Some 1%nat)); simpl; try done.
    - by repeat constructor.
    - apply (head_app_Forall (fun c => in_class [Single "@"] c = false));
        [done|].
      eapply Forall_impl; [exact Hdom|]. intros x Hx. simpl.
      rewrite orb_false_r. apply N.eqb_neq. intros ->. discriminate.
    - apply H3. }
  unfold EMAIL_REGEX, EMAIL_GROUP. cbn [app].
  rewrite (match_here_run local_part 1 None _ prev loc _
             (1 + (length dom + (1 + (length tld + 0))))); simpl; try done.
  - f_equal. rewrite !length_app. simpl. rewrite !length_app. simpl. lia.
  - eapply Forall_impl; [exact Hloc|]. apply spec_local_in_class.
  - destruct loc; [done|]. simpl. lia.
  - apply H2.
Qed.

Lemma search_from_here r pos prev s len :
  match_here r prev s = Some len -> search_from r pos prev s = Some (pos, len).
Proof. intros Hm. destruct s; cbn [search_from]; by rewrite Hm. Qed.

(** A strict address that ends with a letter or a digit is returned as it
    is. *)
Lemma clean_email_valid s :
  strict_email s -> ends_alnum s -> clean_email s = s.
Proof.
  intros (loc & dom & tld & -> & Hloc0 & Hloc & Hdom0 & Hdom & Hlen & Htld)
         (c & Hlast & Hc).
  assert (Htld0 : tld <> []) by (intros ->; simpl in Hlen; lia).
  assert (Hlast' : last tld = Some c).
  { destruct tld as [|x tld' _] using rev_ind; [done|].
    rewrite <- Hlast, !app_assoc. by rewrite !last_snoc. }
  unfold clean_email, re_search.
  rewrite (search_from_here _ _ _ _ (length (loc ++ [chr "@"] ++ dom ++ [chr "."] ++ tld)))
    by (by eapply strict_email_matches).
  by rewrite drop_0, take_ge.
Qed.

End KeepsValid.

(** X1: a strict address that ends with a letter or a digit goes through
    [clean_email] unchanged: the cleaner loses no well-formed address. *)
Theorem valid_address_is_kept `{U : UnicodeDB} (s : pystr) :
  strict_email s -> ends_alnum s -> clean_emails.clean_email s = s.
Proof. apply clean_email_valid. Qed.

Lemma valid_address_is_kept_witness :
  strict_email (lit "a.b+c@shop-1.test") /\ ends_alnum (lit "a.b+c@shop-1.test") /\
  clean_emails.clean_email (U := plain_db) (lit "a.b+c@shop-1.test")
    = lit "a.b+c@shop-1.test".
Proof.
  assert (Hs : strict_email (lit "a.b+c@shop-1.test")).
  { exists (lit "a.b+c"), (lit "shop-1"), (lit "test").
    split; [reflexivity|]. split; [discriminate|].
    split; [repeat constructor|]. split; [discriminate|].
    split; [repeat constructor|]. split; [simpl; lia|repeat constructor]. }
  assert (He : ends_alnum (lit "a.b+c@shop-1.test")).
  { exists (chr "t"). split; reflexivity. }
  split; [exact Hs|]. split; [exact He|].
  apply (valid_address_is_kept (U := plain_db)); [exact Hs|exact He].
Defined.

(** ** Rows that need no cleaning, and what cleaned rows hold *)

Lemma join_split sep s : join [sep] (split sep s) = s.
Proof.
  induction s as [|c s IH]; simpl; [done|].
  destruct (N.eqb_spec c sep) as [-> |Hc].
  - destruct (split sep s) as [|p k] eqn:Hk; [by destruct s; simplify_eq/=;
      repeat case_match|]. simpl. by rewrite <- IH.
  - destruct (split sep s) as [|p k] eqn:Hk.
    + destruct s; simplify_eq/=; repeat case_match; done.
    + destruct k; simpl in *; by rewrite <- IH.
Qed.

Section CleanRows.
Context `{U : UnicodeDB}.
Import clean_emails.

Lemma clean_list_valid l :
  Forall (fun e => strict_email e /\ ends_alnum e) l -> clean_list l = l.
Proof.
  induction 1 as [|e l [Hs He] _ IH]; simpl; [done|].
  rewrite clean_email_valid by done. rewrite IH.
  destruct e; [|done]. by destruct He as (c & ? & _).
Qed.

Lemma clean_list_strict l : Forall strict_email (clean_list l).
Proof.
  induction l as [|e l IH]; simpl; [constructor|].
  destruct (clean_email e) as [|c w] eqn:He; simpl; [done|].
  constructor; [|done]. rewrite <- He.
  destruct (clean_email_shape e) as [Hnil|Hs]; [congruence|]. by apply shape_strict.
Qed.

(** The rewritten field is empty or splits into strict addresses. *)
Lemma join_clean_list_strict l :
  let field := join [semicolon] (clean_list l) in
  field = [] \/ Forall strict_email (split semicolon field).
Proof.
  simpl. pose proof (clean_list_pieces l) as Hp.
  pose proof (clean_list_strict l) as Hs.
  destruct (clean_list l) as [|p k]; [by left|]. right.
  rewrite split_join; [done|done|].
  eapply Forall_impl; [exact Hp|]. by intros ? [_ ?].
Qed.

Lemma clean_row_field idx row :
  (0 <= idx < Z.of_nat (length row))%Z ->
  exists new_field,
    clean_row idx row = Kept (<[Z.to_nat idx := new_field]> row)
                             (count_emails (default [] (row !! Z.to_nat idx)))
                             (count_emails new_field) /\
    (new_field = [] \/ Forall strict_email (split semicolon new_field)).
Proof.
  intros Hidx. unfold clean_row, py_index.
  destruct (Z.leb_spec (Z.of_nat (length row)) idx); [lia|].
  destruct (Z.leb_spec 0 idx); [|lia].
  destruct (Z.ltb_spec idx (Z.of_nat (length row))); [|lia]. simpl.
  destruct (lookup_lt_is_Some_2 row (Z.to_nat idx)) as [old Hold]; [lia|].
  rewrite Hold. destruct old as [|c old]; simpl.
  - exists []. rewrite list_insert_id by done. split; [done|by left].
  - eexists. rewrite count_join_clean_list. split; [done|].
    apply join_clean_list_strict.
Qed.

Lemma clean_rows_fields idx rows st st' :
  (0 <= idx)%Z ->
  clean_rows idx rows st = Some st' ->
  exists out,
    cleaned_data st' = cleaned_data st ++ out /\
    Forall (fun new_row => exists field,
              new_row !! Z.to_nat idx = Some field /\
              (field = [] \/ Forall strict_email (split semicolon field))) out.
Proof.
  intros Hidx. revert st; induction rows as [|row rows IH]; simpl; intros st.
  - intros [= <-]. exists []. by rewrite app_nil_r.
  - destruct (Z.le_gt_cases (Z.of_nat (length row)) idx) as [Hshort|Hlong].
    + rewrite clean_row_short by done. apply IH.
    + destruct (clean_row_field idx row) as (new & -> & Hnew); [lia|].
      intros Hrows. apply IH in Hrows as (out & -> & Hout). simpl.
      exists (<[Z.to_nat idx := new]> row :: out).
      rewrite <- app_assoc. split; [done|]. constructor; [|done].
      exists new. split; [|done]. apply list_lookup_insert_eq. lia.
Qed.

Lemma py_index_last {A} (x : A) (l : list A) :
  py_index (x :: l) (-1) = Some (length l).
Proof.
  unfold py_index.
  destruct (Z.leb_spec 0 (-1)); [lia|]. cbn [andb].
  destruct (Z.leb_spec (- Z.of_nat (length (x :: l))) (-1)); [|simpl in *; lia].
  cbn [andb Z.ltb Z.compare]. f_equal. simpl length. lia.
Qed.

Lemma clean_row_empty_header row :
  clean_row (-1) row = RowIndexError <-> row = [].
Proof.
  destruct row as [|f row]; [done|]. unfold clean_row.
  destruct (Z.leb_spec (Z.of_nat (length (f :: row))) (-1)); [lia|].
  rewrite py_index_last.
  destruct (lookup_lt_is_Some_2 (f :: row) (length row)) as [old ->];
    [simpl; lia|].
  split; [|done]. by destruct (negb _).
Qed.

Lemma clean_rows_empty_header rows st :
  clean_rows (-1) rows st = None <-> [] ∈ rows.
Proof.
  revert st; induction rows as [|row rows IH]; intros st; simpl.
  - split; [done|]. intros Hin. by apply elem_of_nil in Hin.
  - rewrite elem_of_cons.
    destruct (clean_row (-1) row) as [|new b a|] eqn:Hrow.
    + rewrite IH. split; [by right|]. intros [<-|?]; [|done].
      by rewrite (proj2 (clean_row_empty_header [])) in Hrow.
    + rewrite IH. split; [by right|]. intros [<-|?]; [|done].
      by rewrite (proj2 (clean_row_empty_header [])) in Hrow.
    + apply clean_row_empty_header in Hrow as ->. split; [by left|done].
Qed.

End CleanRows.

(** X2: a row whose emails field is empty, or holds only strict addresses
    that end with a letter or a digit, goes through the cleaning unchanged,
    with equal counts before and after. *)
Theorem tidy_row_is_unchanged `{U : UnicodeDB} (idx : Z)
  (row : clean_emails.csv_row) (field : pystr) :
  (0 <= idx < Z.of_nat (length row))%Z ->
  row !! Z.to_nat idx = Some field ->
  clean_field field ->
  clean_emails.clean_row idx row
    = clean_emails.Kept row (count_emails field) (count_emails field).
Proof.
  intros Hidx Hfield Hclean. unfold clean_emails.clean_row, clean_emails.py_index.
  destruct (Z.leb_spec (Z.of_nat (length row)) idx); [lia|].
  destruct (Z.leb_spec 0 idx); [|lia].
  destruct (Z.ltb_spec idx (Z.of_nat (length row))); [|lia]. simpl.
  rewrite Hfield. destruct field as [|c field]; [done|]. simpl negb. cbv iota.
  destruct Hclean as [?|Hclean]; [done|].
  rewrite (clean_list_valid _ Hclean), join_split, list_insert_id by done. done.
Qed.

Lemma tidy_row_is_unchanged_witness :
  (0 <= 1 < Z.of_nat (length tidy_row))%Z /\
  tidy_row !! Z.to_nat 1 = Some (lit "a@b.com;c@d.io") /\
  clean_emails.clean_row (U := plain_db) 1 tidy_row
    = clean_emails.Kept tidy_row 2 2.
Proof.
  split; [simpl; lia|]. split; [reflexivity|].
  apply (tidy_row_is_unchanged (U := plain_db) 1 tidy_row (lit "a@b.com;c@d.io")).
  - simpl; lia.
  - reflexivity.
  - right. repeat constructor.
    + exists (lit "a"), (lit "b"), (lit "com").
      split; [reflexivity|]. split; [discriminate|].
      split; [repeat constructor|]. split; [discriminate|].
      split; [repeat constructor|]. split; [simpl; lia|repeat constructor].
    + exists (chr "m"). split; reflexivity.
    + exists (lit "c"), (lit "d"), (lit "io").
      split; [reflexivity|]. split; [discriminate|].
      split; [repeat constructor|]. split; [discriminate|].
      split; [repeat constructor|]. split; [simpl; lia|repeat constructor].
    + exists (chr "o"). split; reflexivity.
Defined.

(** X3: in the output of a cleaning pass, under a header that is not
    empty, the field at the emails column of every data row is empty or
    splits at the semicolons into strings of the group of the strict
    pattern: a local part over [A-Za-z0-9_.+-], an [@], one label over
    [A-Za-z0-9-], a dot and a label of 2 to 6 code points over
    [A-Za-z0-9-].  (The word boundary of the pattern held in the candidate;
    it need not hold after the string that is written, which can end with a
    hyphen.) *)
Theorem cleaned_fields_are_strict `{U : UnicodeDB} header rows st :
  header <> [] ->
  clean_emails.clean_emails_file (Some (header :: rows)) = clean_emails.Written st ->
  forall new_row,
    new_row ∈ tail (clean_emails.cleaned_data st) ->
    exists field,
      new_row !! Z.to_nat (clean_emails.email_col_idx header) = Some field /\
      (field = [] \/
       Forall strict_email (split clean_emails.semicolon field)).
Proof.
  intros Hh. unfold clean_emails.clean_emails_file.
  destruct (clean_emails.clean_rows _ rows _) as [st'|] eqn:Hrows; [|done].
  intros [= <-] new_row Hin.
  apply clean_rows_fields in Hrows as (out & Hdata & Hout);
    [|by apply email_col_idx_nonneg].
  rewrite Hdata in Hin. simpl in Hin.
  by apply (proj1 (Forall_forall _ _) Hout).
Qed.

Lemma cleaned_fields_are_strict_witness :
  [lit "url"; lit "emails"] <> [] /\
  clean_emails.clean_emails_file (U := plain_db) (Some sample_table)
    = clean_emails.Written sample_cleaned /\
  forall new_row,
    new_row ∈ tail (clean_emails.cleaned_data sample_cleaned) ->
    exists field,
      new_row !! Z.to_nat (clean_emails.email_col_idx (U := plain_db)
                             [lit "url"; lit "emails"]) = Some field /\
      (field = [] \/
       Forall strict_email (split clean_emails.semicolon field)).
Proof.
  split; [discriminate|]. split; [vm_compute; reflexivity|].
  apply (cleaned_fields_are_strict (U := plain_db)
           [lit "url"; lit "emails"] (tail sample_table) sample_cleaned).
  - discriminate.
  - vm_compute; reflexivity.
Defined.

(** X4: under an empty header the emails column is the last field of each
    row, and the cleaning raises exactly when some data row is empty. *)
Theorem empty_header_raises_on_empty_row `{U : UnicodeDB}
  (rows : list clean_emails.csv_row) :
  clean_emails.email_col_idx [] = (-1)%Z /\
  (clean_emails.clean_emails_file (Some ([] :: rows)) = clean_emails.Raised
   <-> [] ∈ rows).
Proof.
  split; [done|]. unfold clean_emails.clean_emails_file.
  change (clean_emails.email_col_idx []) with (-1)%Z.
  destruct (clean_emails.clean_rows _ rows _) as [st'|] eqn:Hrows.
  - split; [done|]. intros Hin.
    epose proof (proj2 (clean_rows_empty_header rows _) Hin) as Hn.
    rewrite Hrows in Hn. done.
  - split; [|done]. intros _. by apply clean_rows_empty_header in Hrows.
Qed.

(** ** What the scraper returns and what it asks of the network *)

Section ScraperResults.
Context `{U : UnicodeDB}.
Import url_processor.

Lemma findall_from_sound r skip prev s w :
  w ∈ findall_from r skip prev s -> shape r w /\ substring w s.
Proof.
  revert skip prev; induction s as [|c s IH]; intros skip prev.
  - destruct skip; simpl; [|by intros ?%elem_of_nil].
    destruct (match_here r prev []) as [len|] eqn:Hm; [|by intros ?%elem_of_nil].
    intros Hw. apply list_elem_of_singleton in Hw as ->.
    apply match_here_sound in Hm as [_ Hshape]. split; [done|].
    exists [], (drop len []). by rewrite take_drop.
  - assert (Hrest : forall skip' prev',
              w ∈ findall_from r skip' prev' s -> shape r w /\ substring w (c :: s)).
    { intros skip' prev' Hw. apply IH in Hw as [? (pre & post & ->)].
      split; [done|]. by exists (c :: pre), post. }
    destruct skip; cbn [findall_from]; [|apply Hrest].
    destruct (match_here r prev (c :: s)) as [len|] eqn:Hm; [|apply Hrest].
    intros Hw. apply elem_of_cons in Hw as [-> |Hw]; [|by eapply Hrest].
    apply match_here_sound in Hm as [_ Hshape]. split; [done|].
    exists [], (drop len (c :: s)). by rewrite app_nil_l, take_drop.
Qed.

Lemma loose_classes c :
  (in_class [Range "a" "z"; Range "A" "Z"; Range "0" "9";
             Single "."; Single "_"; Single "%"; Single "+"; Single "-"] c = true ->
   loose_local_char c = true) /\
  (in_class [Range "a" "z"; Range "A" "Z"; Range "0" "9"; Single "."; Single "-"] c
     = true -> loose_domain_char c = true) /\
  (in_class [Range "a" "z"; Range "A" "Z"] c = true -> ascii_letter c = true).
Proof.
  unfold loose_local_char, loose_domain_char, ascii_letter, ascii_alnum,
    in_class, existsb, in_item.
  code_points. repeat split; intros Hc;
    repeat (apply orb_true_iff in Hc as [Hc|Hc]); try discriminate;
    try (rewrite Hc; rewrite ?orb_true_r; reflexivity);
    apply N.eqb_eq in Hc as ->; reflexivity.
Qed.

Lemma shape_loose w : shape EMAIL_REGEX w -> loose_email w.
Proof.
  cbn. intros (loc & v1 & -> & Hloc & Hn1 & _ &
               at_ & v2 & -> & Hat & Hat1 & Hat2 &
               dom & v3 & -> & Hdom & Hn3 & _ &
               dot & v4 & -> & Hdot & Hdot1 & Hdot2 &
               tld & v5 & -> & Htld & Hlo & _ & ->).
  rewrite (single_run "@" at_), (single_run "." dot) by (auto; lia).
  exists loc, dom, tld. rewrite app_nil_r. repeat split; try lia.
  - intros ->. simpl in Hn1. lia.
  - eapply Forall_impl; [exact Hloc|]. intros c. apply loose_classes.
  - intros ->. simpl in Hn3. lia.
  - eapply Forall_impl; [exact Hdom|]. intros c. apply loose_classes.
  - eapply Forall_impl; [exact Htld|]. intros c. apply loose_classes.
Qed.

Lemma loose_email_at w : loose_email w -> chr "@" ∈ w.
Proof. intros (loc & dom & tld & -> & _). set_solver. Qed.

Lemma findall_loose text w :
  w ∈ re_findall EMAIL_REGEX text -> loose_email w /\ substring w text.
Proof.
  intros Hw. apply findall_from_sound in Hw as [Hs ?]. split; [|done].
  by apply shape_loose.
Qed.

(** The visits of the contact pages only add to the set, add only matches
    of the pattern, and cost one request and one sleep per page. *)
Lemma visit_contacts_spec W n urls emails :
  let '(emails', log) := visit_contacts W n urls emails in
  emails ⊆ emails' /\
  (forall x, x ∈ emails' -> x ∈ emails \/ loose_email x) /\
  length (filter (fun e => is_get e = true) log) = length urls /\
  length (filter (fun e => is_sleep e = true) log) = length urls.
Proof.
  revert n emails; induction urls as [|u urls IH]; intros n emails; simpl.
  - split; [done|]. split; [by left|done].
  - set (step := match requests_get W n u with
                 | HttpError => (emails, [PrintContactError u])
                 | Response status page =>
                     if (status =? 200)%Z
                     then (emails ∪ list_to_set (re_findall EMAIL_REGEX (soup_text page)), [])
                     else (emails, [])
                 end).
    assert (Hstep : emails ⊆ step.1 /\
                    (forall x, x ∈ step.1 -> x ∈ emails \/ loose_email x) /\
                    filter (fun e => is_get e = true) step.2 = [] /\
                    filter (fun e => is_sleep e = true) step.2 = []).
    { unfold step. destruct (requests_get W n u) as [|status page]; simpl.
      - split; [done|]. split; [by left|done].
      - destruct (status =? 200)%Z; simpl; [|split; [done|]; split; [by left|done]].
        split; [set_solver|]. split; [|done].
        intros x Hx. apply elem_of_union in Hx as [?|Hx]; [by left|]. right.
        apply elem_of_list_to_set in Hx. by apply findall_loose in Hx as [? _]. }
    destruct step as [emails1 log1]. simpl in Hstep.
    destruct Hstep as (Hsub & Hfrom & Hget & Hsleep).
    specialize (IH (S n) emails1).
    destruct (visit_contacts W (S n) urls emails1) as [emails2 log2].
    destruct IH as (Hsub2 & Hfrom2 & Hget2 & Hsleep2).
    split; [set_solver|]. split.
    { intros x Hx. destruct (Hfrom2 x Hx) as [?|?]; [|by right]. by apply Hfrom. }
    rewrite !filter_cons, !filter_app, !filter_cons. simpl.
    rewrite Hget, Hsleep, !length_app. simpl. rewrite Hget2, Hsleep2.
    split; reflexivity.
Qed.

End ScraperResults.

(** X5: every string that [re.findall] takes from a text with the
    extraction pattern has the form of that pattern from its first to its
    last code point, and occurs in the text. *)
Theorem findall_gives_loose_matches `{U : UnicodeDB} (text w : pystr) :
  w ∈ re_findall url_processor.EMAIL_REGEX text ->
  loose_email w /\ substring w text.
Proof. apply findall_loose. Qed.

Lemma findall_gives_loose_matches_witness :
  lit "hello@firm.io"
    ∈ re_findall (U := plain_db) url_processor.EMAIL_REGEX
        (lit "Contact us at hello@firm.io!") /\
  loose_email (lit "hello@firm.io") /\
  substring (lit "hello@firm.io") (lit "Contact us at hello@firm.io!").
Proof.
  assert (Hin : lit "hello@firm.io"
                  ∈ re_findall (U := plain_db) url_processor.EMAIL_REGEX
                      (lit "Contact us at hello@firm.io!"))
    by (apply (bool_decide_unpack _); vm_compute; exact I).
  split; [exact Hin|].
  apply (findall_gives_loose_matches (U := plain_db)
           (lit "Contact us at hello@firm.io!") (lit "hello@firm.io")).
  exact Hin.
Defined.

Lemma extract_requests `{U : UnicodeDB} (W : url_processor.Web) (url : pystr) :
  let log := snd (url_processor.extract_emails_from_url W url) in
  (length (filter (fun e => url_processor.is_get e = true) log) <= 3)%nat /\
  length (filter (fun e => is_sleep e = true) log)
    = (length (filter (fun e => url_processor.is_get e = true) log) - 1)%nat.
Proof.
  unfold url_processor.extract_emails_from_url.
  destruct (url_processor.validators_url W url); simpl; [|split; [lia|done]].
  destruct (url_processor.requests_get W 0 _) as [|status page]; simpl;
    [split; [lia|done]|].
  destruct (status =? 200)%Z; simpl; [|split; [lia|done]].
  match goal with
  | |- context [url_processor.visit_contacts W 1 ?urls ?emails] =>
      pose proof (visit_contacts_spec W 1 urls emails) as Hv;
      assert (Hlen : (length urls <= 2)%nat) by (rewrite length_take; lia);
      destruct (url_processor.visit_contacts W 1 urls emails) as [emails' log]
  end.
  destruct Hv as (_ & _ & Hget & Hsleep). simpl.
  rewrite (filter_cons_False (fun e => is_sleep e = true)) by done.
  rewrite Hget, Hsleep. split; lia.
Qed.

(** X6: one call of [extract_emails_from_url] issues at most three
    requests, and sleeps once after each request but the first. *)
Theorem at_most_three_requests `{U : UnicodeDB} (W : url_processor.Web) (url : pystr) :
  let log := snd (url_processor.extract_emails_from_url W url) in
  (length (filter (fun e => url_processor.is_get e = true) log) <= 3)%nat /\
  length (filter (fun e => is_sleep e = true) log)
    = (length (filter (fun e => url_processor.is_get e = true) log) - 1)%nat.
Proof. apply extract_requests. Qed.

(** X7: every string that [extract_emails_from_url] returns holds an [@]:
    it is a match of the extraction pattern, or what follows [mailto:] in
    the href of a link of the page of the URL. *)
Theorem candidates_hold_an_at `{U : UnicodeDB} (W : url_processor.Web) (url x : pystr) :
  x ∈ fst (url_processor.extract_emails_from_url W url) ->
  chr "@" ∈ x /\
  (loose_email x \/
   exists page link,
     url_processor.requests_get W 0 (url_processor.add_scheme url)
       = url_processor.Response 200 page /\
     link ∈ url_processor.soup_links page /\
     url_processor.get_href link = lit "mailto:" ++ x).
Proof.
  unfold url_processor.extract_emails_from_url.
  destruct (url_processor.validators_url W url); simpl; [|by intros ?%elem_of_empty].
  destruct (url_processor.requests_get W 0 _) as [|status page] eqn:Hget; simpl;
    [by intros ?%elem_of_empty|].
  destruct (Z.eqb_spec status 200) as [-> |_]; simpl; [|by intros ?%elem_of_empty].
  match goal with
  | |- context [url_processor.visit_contacts W 1 ?urls ?emails] =>
      pose proof (visit_contacts_spec W 1 urls emails) as Hv;
      destruct (url_processor.visit_contacts W 1 urls emails) as [emails' log]
  end.
  destruct Hv as (_ & Hfrom & _). simpl. intros Hx.
  assert (Hcases : loose_email x \/
            exists link, link ∈ url_processor.soup_links page /\
              url_processor.get_href link = lit "mailto:" ++ x /\ chr "@" ∈ x).
  { destruct (Hfrom x Hx) as [Hh|?]; [|by left].
    apply harvest_mailto_spec in Hh as [Hh|?]; [|by right].
    apply elem_of_union in Hh as [Hh|Hh]; [by apply elem_of_empty in Hh|].
    apply elem_of_list_to_set in Hh. left. by apply findall_loose in Hh as [? _]. }
  destruct Hcases as [Hl|(link & Hin & Hhref & Hat)].
  - split; [by apply loose_email_at|by left].
  - split; [done|]. right. by exists page, link.
Qed.

Lemma candidates_hold_an_at_witness :
  lit "hello@firm.io"
    ∈ fst (url_processor.extract_emails_from_url (U := plain_db) shop_web
             (lit "https://shop.test")) /\
  chr "@" ∈ lit "hello@firm.io".
Proof.
  assert (Hin : lit "hello@firm.io"
                  ∈ fst (url_processor.extract_emails_from_url (U := plain_db) shop_web
                           (lit "https://shop.test")))
    by (apply (bool_decide_unpack _); vm_compute; exact I).
  split; [exact Hin|].
  apply (candidates_hold_an_at (U := plain_db) shop_web (lit "https://shop.test")).
  exact Hin.
Defined.

(** X8: when the page of the URL is fetched with status 200, every match
    of the pattern in its text and every [mailto:] remainder with an [@] is
    in the result, whatever happens at the contact pages. *)
Theorem seed_page_results_are_kept `{U : UnicodeDB} (W : url_processor.Web)
  (url : pystr) (page : url_processor.soup) (x : pystr) :
  url_processor.validators_url W url = true ->
  url_processor.requests_get W 0 (url_processor.add_scheme url)
    = url_processor.Response 200 page ->
  x ∈ re_findall url_processor.EMAIL_REGEX (url_processor.soup_text page) \/
  (exists link, link ∈ url_processor.soup_links page /\
     url_processor.get_href link = lit "mailto:" ++ x /\ chr "@" ∈ x) ->
  x ∈ fst (url_processor.extract_emails_from_url W url).
Proof.
  intros Hvalid Hget Hx. unfold url_processor.extract_emails_from_url.
  rewrite Hvalid. simpl. rewrite Hget. simpl.
  match goal with
  | |- context [url_processor.visit_contacts W 1 ?urls ?emails] =>
      pose proof (visit_contacts_spec W 1 urls emails) as Hv;
      destruct (url_processor.visit_contacts W 1 urls emails) as [emails' log]
  end.
  destruct Hv as (Hsub & _). simpl. apply Hsub.
  apply harvest_mailto_spec. destruct Hx as [Hx|Hx]; [left|by right].
  apply elem_of_union. right. by apply elem_of_list_to_set.
Qed.

Lemma seed_page_results_are_kept_witness :
  url_processor.validators_url shop_web (lit "shop.test") = true /\
  url_processor.requests_get shop_web 0 (url_processor.add_scheme (lit "shop.test"))
    = url_processor.Response 200 shop_page /\
  lit "info@shop.test?subject=hi"
    ∈ fst (url_processor.extract_emails_from_url (U := plain_db) shop_web
             (lit "shop.test")).
Proof.
  split; [reflexivity|]. split; [reflexivity|].
  apply (seed_page_results_are_kept (U := plain_db) shop_web (lit "shop.test") shop_page).
  - reflexivity.
  - reflexivity.
  - right. eexists. split; [left|]. split; [reflexivity|].
    apply (bool_decide_unpack _). vm_compute. exact I.
Defined.

(** ** Resolving the href of a contact link *)

Lemma rstrip_spec c s :
  exists n, s = url_processor.rstrip c s ++ replicate n c /\
            last (url_processor.rstrip c s) <> Some c.
Proof.
  unfold url_processor.rstrip. induction s as [|x s (n & Hs & Hlast)]; simpl.
  - by exists O.
  - destruct (foldr _ [] s) as [|y k] eqn:Hk.
    + destruct (N.eqb_spec x c) as [-> |Hx].
      * exists (S n). simpl in *. by rewrite Hs at 1.
      * exists n. simpl in *. split; [by rewrite Hs at 1|]. by intros [= ->].
    + exists n. split; [simpl; by rewrite Hs at 1|].
      by rewrite last_cons_cons.
Qed.

(** X9: a contact link is resolved against the URL without its trailing
    slashes: an href that starts with a slash is put right after it, an
    href that starts with [http] is taken as it is, and any other href is
    put after it and a slash. *)
Theorem resolve_cases (url href : pystr) :
  exists base n,
    url = base ++ replicate n (chr "/") /\
    last base <> Some (chr "/") /\
    url_processor.resolve url href =
      if startswith href (lit "/") then base ++ href
      else if startswith href (lit "http") then href
      else base ++ lit "/" ++ href.
Proof.
  destruct (rstrip_spec (chr "/") url) as (n & Hurl & Hlast).
  exists (url_processor.rstrip (chr "/") url), n.
  split; [done|]. split; [done|]. reflexivity.
Qed.

(** ** The batch over the rows *)

Section Batch.
Context `{U : UnicodeDB}.
Import batch.

Lemma dict_lookup_set d k v k' :
  dict_lookup (dict_set d k v) k' =
  if bool_decide (k = k') then Some v else dict_lookup d k'.
Proof.
  induction d as [|[k0 v0] d IH]; simpl.
  - done.
  - destruct (decide (k0 = k)) as [-> |Hne].
    + rewrite bool_decide_eq_true_2 by done. simpl. by repeat case_bool_decide.
    + rewrite (bool_decide_eq_false_2 (k0 = k)) by done. simpl. rewrite IH.
      repeat case_bool_decide; congruence.
Qed.

Lemma dict_set_keys d k v :
  (dict_set d k v).*1 = if bool_decide (k ∈ d.*1) then d.*1 else d.*1 ++ [k].
Proof.
  induction d as [|[k0 v0] d IH]; cbn [dict_set]; [done|].
  destruct (decide (k0 = k)) as [-> |Hk0].
  - rewrite !bool_decide_eq_true_2; [done|rewrite fmap_cons; left|done].
  - rewrite (bool_decide_eq_false_2 (k0 = k)) by done.
    rewrite !fmap_cons, IH. cbn [fst].
    destruct (bool_decide (k ∈ d.*1)) eqn:Hin.
    + apply bool_decide_eq_true in Hin.
      rewrite bool_decide_eq_true_2 by (by right). done.
    + apply bool_decide_eq_false in Hin.
      rewrite bool_decide_eq_false_2; [done|].
      intros [?|?]%elem_of_cons; congruence.
Qed.

Lemma same_columns_set r v : same_columns r (dict_set r emails_key v).
Proof.
  intros k Hk. rewrite dict_lookup_set. by rewrite bool_decide_eq_false_2.
Qed.

(** The name of the URL column is not the name of the emails column. *)
Lemma url_column_not_emails keys col :
  find_url_column keys = Some col -> col <> emails_key.
Proof.
  induction keys as [|k keys IH]; simpl; [done|].
  case_bool_decide as Hk; [|done]. intros [= ->] ->.
  revert Hk. apply (bool_decide_unpack _). vm_compute. exact I.
Qed.

Lemma row_kept_refl r : row_kept r r.
Proof. by split. Qed.

Lemma row_kept_set r v : row_kept r (dict_set r emails_key v).
Proof.
  split; [apply same_columns_set|]. intros Hin.
  by rewrite dict_set_keys, bool_decide_eq_true_2.
Qed.

Lemma fetches_of_call (W : url_processor.Web) url :
  (length (filter (fun e => is_fetch e = true)
             ((Scrape <$> (url_processor.extract_emails_from_url W url).2) ++ [Pause]))
   <= 3)%nat.
Proof.
  destruct (extract_requests W url) as [Hget _].
  rewrite filter_app, length_app.
  replace (filter (fun e => is_fetch e = true) [Pause]) with (@nil event) by done.
  assert (Hmap : forall log,
            length (filter (fun e => is_fetch e = true) (Scrape <$> log))
            = length (filter (fun e => url_processor.is_get e = true) log)).
  { induction log as [|e log IH]; [done|]. rewrite fmap_cons, !filter_cons.
    destruct e; simpl; repeat case_decide; simpl; try done; by rewrite IH. }
  rewrite Hmap. simpl in *. lia.
Qed.

Lemma process_rows_spec S col k data :
  match process_rows S col k data with
  | Finished data' k' log =>
      Forall2 row_kept data data' /\
      (length (filter (fun e => is_fetch e = true) log)
       <= 3 * length (filter (fun r => url_set col r = true) data))%nat
  | Interrupted log =>
      (length (filter (fun e => is_fetch e = true) log)
       <= 3 * length (filter (fun r => url_set col r = true) data))%nat
  end.
Proof.
  revert k; induction data as [|r data IH]; intros k; cbn [process_rows].
  - split; [constructor|simpl; lia].
  - destruct (dict_lookup r col) as [[[|c url]|]|] eqn:Hurl.
    + rewrite filter_cons_False by (unfold url_set; by rewrite Hurl).
      specialize (IH k). destruct (process_rows S col k data); [|lia].
      destruct IH as [IH ?]. split; [|lia]. constructor; [apply row_kept_refl|done].
    + rewrite filter_cons_True by (unfold url_set; by rewrite Hurl). cbn [length].
      pose proof (fetches_of_call (web_of S k) (c :: url)) as Hcall.
      destruct (url_processor.extract_emails_from_url (web_of S k) (c :: url))
        as [found events].
      simpl in Hcall. specialize (IH (Datatypes.S k)).
      destruct (process_rows S col (Datatypes.S k) data).
      * destruct IH as [IH ?]. rewrite filter_app, length_app. split; [|lia].
        constructor; [|done].
        destruct (list_of S found); [apply row_kept_refl|apply row_kept_set].
      * rewrite filter_app, length_app. lia.
    + rewrite filter_cons_False by (unfold url_set; by rewrite Hurl).
      specialize (IH k). destruct (process_rows S col k data); [|lia].
      destruct IH as [IH ?]. split; [|lia]. constructor; [apply row_kept_refl|done].
    + simpl. lia.
Qed.

(** Setting the emails column does not change which rows have a URL. *)
Lemma url_rows_after_set col (data : list row) :
  col <> emails_key ->
  length (filter (fun r => url_set col r = true)
            ((fun r => dict_set r emails_key None) <$> data))
  = length (filter (fun r => url_set col r = true) data).
Proof.
  intros Hcol. induction data as [|r data IH]; [done|].
  rewrite fmap_cons, !filter_cons.
  assert (Hr : url_set col (dict_set r emails_key None) = url_set col r).
  { unfold url_set. rewrite dict_lookup_set. by rewrite bool_decide_eq_false_2. }
  rewrite Hr. destruct (decide (url_set col r = true)); simpl; by rewrite IH.
Qed.

(** Without a URL in any row the loop changes nothing and does nothing. *)
Lemma process_rows_idle S col k data :
  Forall (fun r => exists v, dict_lookup r col = Some v /\ truthy v = false) data ->
  process_rows S col k data = Finished data k [].
Proof.
  induction 1 as [|r data (v & Hv & Hfalse) _ IH]; cbn [process_rows]; [done|].
  rewrite Hv, IH. by destruct v as [[|? ?]|].
Qed.

End Batch.



(** X11: a run of [process_urls] on a table with a URL column issues at
    most three requests per row that has a URL in that column; on an input
    that cannot be read, an empty table or a table without URL column it
    issues none. *)
Theorem process_urls_requests `{U : UnicodeDB} (S : batch.Scraping)
  (input : option (list batch.row)) :
  let fetches :=
    length (filter (fun e => batch.is_fetch e = true)
              (snd (batch.process_urls S input))) in
  match input with
  | Some ((first :: _) as data) =>
      match batch.find_url_column first.*1 with
      | Some col =>
          (fetches <= 3 * length (filter (fun r => url_set col r = true) data))%nat
      | None => fetches = O
      end
  | _ => fetches = O
  end.
Proof.
  destruct input as [[|first rest]|]; [done| |done].
  unfold batch.process_urls.
  destruct (batch.find_url_column first.*1) as [col|] eqn:Hcol; [|done].
  pose proof (url_rows_after_set col (first :: rest)
                (url_column_not_emails _ _ Hcol)) as Hrows.
  match goal with
  | |- context [batch.process_rows S col 0 ?d] =>
      pose proof (process_rows_spec S col 0 d) as Hspec;
      destruct (batch.process_rows S col 0 d) as [data' k' log'|log']
  end; rewrite Hrows in Hspec; cbn [snd];
    rewrite filter_cons_False by done.
  - destruct Hspec as [_ Hlen]. rewrite filter_app, length_app.
    rewrite filter_cons_False, filter_nil by done. simpl length at 2. lia.
  - done.
Qed.

(** X12: when the first row has a URL column and no row has a URL in it
    (the value is empty or [None]), [process_urls] issues no request, does
    not sleep, and writes an output without rows: it reports nothing as an
    error. *)
Theorem process_urls_without_urls `{U : UnicodeDB} (S : batch.Scraping)
  (first : batch.row) (rest : list batch.row) (col : pystr) :
  batch.find_url_column first.*1 = Some col ->
  Forall (fun r => exists v, batch.dict_lookup r col = Some v /\ batch.truthy v = false)
         (first :: rest) ->
  batch.process_urls S (Some (first :: rest))
  = (batch.Written (output_columns first) [],
     [batch.PrintExtracting (length (first :: rest)); batch.PrintSaved 0]).
Proof.
  intros Hcol Hidle. unfold batch.process_urls. rewrite Hcol.
  set (data0 := (fun r => batch.dict_set r batch.emails_key None) <$> first :: rest).
  assert (Hrun : batch.process_rows S col 0 data0 = batch.Finished data0 0 []).
  { apply process_rows_idle. apply Forall_fmap. eapply Forall_impl; [exact Hidle|].
    intros r (v & Hv & Hfalse). exists v. split; [|done]. simpl.
    rewrite dict_lookup_set, bool_decide_eq_false_2; [done|].
    intros <-. by apply url_column_not_emails in Hcol. }
  assert (Hfilter :
    filter (fun r => batch.truthy (default None (batch.dict_lookup r batch.emails_key))
                     = true) data0 = []).
  { match goal with |- ?l = [] => destruct l as [|r k] eqn:Hf end; [done|].
    assert (Hr : r ∈ r :: k) by left. rewrite <- Hf in Hr.
    apply list_elem_of_filter in Hr as [Hemails Hr].
    apply list_elem_of_fmap in Hr as (r0 & -> & _).
    rewrite dict_lookup_set, bool_decide_eq_true_2 in Hemails by done. done. }
  assert (Hhead : (default [] (head data0)).*1 = output_columns first).
  { unfold data0. rewrite fmap_cons. cbn [head default]. apply dict_set_keys. }
  rewrite Hrun, Hfilter, Hhead. unfold data0. by rewrite length_fmap.
Qed.

Lemma process_urls_without_urls_witness :
  batch.find_url_column (U := plain_db)
    [(lit "name", Some (lit "A")); (lit "url", Some [])].*1 = Some (lit "url") /\
  batch.process_urls (U := plain_db) shop_scraping (Some idle_rows)
  = (batch.Written [lit "name"; lit "url"; lit "emails"] [],
     [batch.PrintExtracting 2; batch.PrintSaved 0]).
Proof.
  split; [vm_compute; reflexivity|].
  apply (process_urls_without_urls (U := plain_db) shop_scraping
           [(lit "name", Some (lit "A")); (lit "url", Some [])]
           [[(lit "name", Some (lit "B")); (lit "url", None)]] (lit "url")).
  - vm_compute; reflexivity.
  - repeat constructor.
    + exists (Some []). split; reflexivity.
    + exists None. split; reflexivity.
Defined.

(** ** The sending loop *)

Section Sending.
Import email_sender.
Variables (M : Mail) (env : environ) (template subject : pystr).

Hypothesis Hfrom : truthy (SMTP_FROM_EMAIL env) = true.
Hypothesis Hserver : truthy (SMTP_SERVER env) = true.
Hypothesis Huser : truthy (SMTP_USERNAME env) = true.
Hypothesis Hpass : truthy (SMTP_PASSWORD env) = true.

Lemma py_or_None v : py_or None v = v.
Proof. done. Qed.

(** With a complete configuration and a port that is not zero,
    [send_email] opens one session and reports its outcome. *)
Lemma send_email_session p n to_email body :
  env_port M env = Some p -> p <> 0%Z ->
  send_email M env n to_email subject body None None None None None
  = Some (smtp_session M n,
          Smtp (str (SMTP_SERVER env)) p (str (SMTP_USERNAME env))
               to_email subject body
            :: if smtp_session M n then [] else [PrintSendError to_email]).
Proof using Hfrom Hserver Huser Hpass.
  intros Hport Hp. unfold send_email, env_port in *. rewrite !py_or_None.
  destruct (SMTP_PORT env) as [s|].
  - rewrite Hport, Hfrom, Hserver, Huser, Hpass.
    destruct (Z.eqb_spec p 0); [done|]. simpl. by destruct (smtp_session M n).
  - injection Hport as <-. rewrite Hfrom, Hserver, Huser, Hpass. simpl.
    by destruct (smtp_session M n).
Qed.

(** With a port that [int] refuses, [send_email] raises. *)
Lemma send_email_bad_port n to_email body :
  env_port M env = None ->
  send_email M env n to_email subject body None None None None None = None.
Proof.
  unfold send_email, env_port. intros Hport.
  destruct (SMTP_PORT env); [by rewrite Hport|done].
Qed.

Lemma send_row_bad_port r emails st :
  env_port M env = None ->
  send_row M env template subject r emails st = Finished st \/
  send_row M env template subject r emails st = Interrupted st.
Proof.
  intros Hport. induction emails as [|e emails IH]; simpl; [by left|].
  destruct (strip e); [done|]. rewrite send_email_bad_port by done. by right.
Qed.

Lemma send_rows_bad_port rows st :
  env_port M env = None ->
  send_rows M env template subject rows st = Finished st \/
  send_rows M env template subject rows st = Interrupted st.
Proof.
  intros Hport. induction rows as [|r rows IH]; cbn [send_rows]; [by left|].
  destruct (dict_get r emails_key (Some [])) as [emails|]; [|by right].
  destruct (send_row_bad_port r (split (chr ";") emails) st Hport) as [-> | ->];
    [done|by right].
Qed.

Lemma successes_add a m1 m2 :
  successes M a (m1 + m2) = (successes M a m1 + successes M (a + m1) m2)%nat.
Proof. unfold successes. by rewrite seq_app, filter_app, length_app. Qed.

Lemma advanced_refl st : advanced M st st [].
Proof.
  unfold advanced, successes. simpl. rewrite app_nil_r. repeat split; lia.
Qed.

Lemma advanced_trans st st1 st2 m1 m2 :
  advanced M st st1 m1 -> advanced M st1 st2 m2 -> advanced M st st2 (m1 ++ m2).
Proof.
  unfold advanced. intros (Hl1 & Hs1 & Hc1 & Hp1) (Hl2 & Hs2 & Hc2 & Hp2).
  rewrite length_app, successes_add.
  rewrite Hl2, Hl1, Hs2, Hs1, Hc2, Hc1, Hp2, Hp1, Hs1.
  rewrite <- app_assoc. repeat split; lia.
Qed.

(** The loop over the addresses of a row sends one message to each
    address that is not blank. *)
Lemma send_row_messages p r emails st :
  env_port M env = Some p -> p <> 0%Z ->
  exists st',
    send_row M env template subject r emails st = Finished st' /\
    advanced M st st'
      ((fun e => (e, subject, render template r))
         <$> filter (fun e => e <> []) (strip <$> emails)).
Proof using Hfrom Hserver Huser Hpass.
  intros Hport Hp. revert st; induction emails as [|e emails IH]; intros st.
  - exists st. split; [done|]. apply advanced_refl.
  - cbn [send_row]. rewrite fmap_cons. destruct (strip e) as [|c w] eqn:He.
    + rewrite filter_cons_False by (by intros ?). apply IH.
    + rewrite filter_cons_True by done. rewrite fmap_cons.
      rewrite (send_email_session p (sessions st) (c :: w) (render template r)
                 Hport Hp).
      match goal with
      | |- context [send_row M env template subject r emails ?st1] =>
          destruct (IH st1) as (st' & -> & Hadv); set (s1 := st1) in *
      end.
      exists st'. split; [done|].
      apply (advanced_trans st s1 st' [_] _); [|done].
      unfold advanced, s1, successes. cbn [log sessions sent_count length].
      rewrite !omap_app, !filter_app, !length_app. cbn [seq].
      destruct (smtp_session M (sessions st)) eqn:Hok.
      * rewrite (filter_cons_True (fun k => smtp_session M k = true)) by done.
        simpl. repeat split; lia.
      * rewrite (filter_cons_False (fun k => smtp_session M k = true))
          by (by rewrite Hok).
        simpl. repeat split; lia.
Qed.

(** The loop over the rows sends the messages of the rows, in order. *)
Lemma send_rows_messages p rows st :
  env_port M env = Some p -> p <> 0%Z ->
  Forall (fun r => dict_get r emails_key (Some []) <> None) rows ->
  exists st',
    send_rows M env template subject rows st = Finished st' /\
    advanced M st st' (mjoin (row_messages template subject <$> rows)).
Proof using Hfrom Hserver Huser Hpass.
  intros Hport Hp Hrows. revert st.
  induction Hrows as [|r rows Hr _ IH]; intros st.
  - exists st. split; [done|]. apply advanced_refl.
  - cbn [send_rows]. rewrite fmap_cons. cbn [mjoin list_join].
    unfold row_messages at 1, recipients.
    destruct (dict_get r emails_key (Some [])) as [emails|]; [|done].
    destruct (send_row_messages p r (split (chr ";") emails) st Hport Hp)
      as (st1 & -> & Hadv1).
    destruct (IH st1) as (st' & -> & Hadv).
    exists st'. split; [done|]. by eapply advanced_trans.
Qed.

(** A row whose emails value is [None] stops the loop, after the messages
    of the rows before it. *)
Lemma send_rows_interrupted p good bad rest st :
  env_port M env = Some p -> p <> 0%Z ->
  Forall (fun r => dict_get r emails_key (Some []) <> None) good ->
  dict_get bad emails_key (Some []) = None ->
  exists st',
    send_rows M env template subject (good ++ bad :: rest) st = Interrupted st' /\
    advanced M st st' (mjoin (row_messages template subject <$> good)).
Proof using Hfrom Hserver Huser Hpass.
  intros Hport Hp Hgood Hbad. revert st.
  induction Hgood as [|r good Hr _ IH]; intros st.
  - exists st. cbn [app send_rows]. rewrite Hbad. split; [done|].
    apply advanced_refl.
  - cbn [app send_rows]. rewrite fmap_cons. cbn [mjoin list_join].
    unfold row_messages at 1, recipients.
    destruct (dict_get r emails_key (Some [])) as [emails|]; [|done].
    destruct (send_row_messages p r (split (chr ";") emails) st Hport Hp)
      as (st1 & -> & Hadv1).
    destruct (IH st1) as (st' & -> & Hadv).
    exists st'. split; [done|]. by eapply advanced_trans.
Qed.

End Sending.

(** X13: with a complete configuration, a port that is not zero, a
    readable template and rows that all have an emails value,
    [send_emails] returns normally; its SMTP sessions carry, in the order of
    the rows, one message for every address of a row that is not blank, with
    the given subject and the row's rendered template as body; it sleeps
    once per message, and returns the number of sessions that went
    through. *)
Theorem one_message_per_address (M : email_sender.Mail) (env : email_sender.environ)
  (l : list email_sender.pyobj) (rows : list email_sender.row)
  (template_file template subject : pystr) (p : Z) :
  mapM email_sender.as_dict l = Some rows ->
  email_sender.read_file M template_file = Some template ->
  email_sender.truthy (email_sender.SMTP_FROM_EMAIL env) = true ->
  email_sender.truthy (email_sender.SMTP_SERVER env) = true ->
  email_sender.truthy (email_sender.SMTP_USERNAME env) = true ->
  email_sender.truthy (email_sender.SMTP_PASSWORD env) = true ->
  env_port M env = Some p -> p <> 0%Z ->
  Forall (fun r => email_sender.dict_get r email_sender.emails_key (Some []) <> None)
         rows ->
  exists n log,
    email_sender.send_emails M env (email_sender.DataList l) template_file subject
      = (email_sender.Returned n, log) /\
    omap smtp_message log = mjoin (row_messages template subject <$> rows) /\
    length (filter (fun e => is_pause e = true) log)
      = length (omap smtp_message log) /\
    n = successes M 0 (length (omap smtp_message log)).
Proof.
  intros Hl Hfile Hfrom Hserver Huser Hpass Hport Hp Hrows.
  unfold email_sender.send_emails. rewrite Hl, Hfile, Hfrom, Hserver, Huser, Hpass.
  cbn [andb negb].
  match goal with
  | |- context [email_sender.send_rows M env template subject rows ?st0] =>
      destruct (send_rows_messages M env template subject Hfrom Hserver Huser Hpass
                  p rows st0 Hport Hp Hrows)
        as (st' & -> & Hlog & Hsessions & Hcount & Hpause)
  end.
  cbn [email_sender.log email_sender.sessions email_sender.sent_count] in *.
  simpl in Hlog, Hcount, Hpause.
  eexists _, _. split; [done|].
  rewrite omap_app, filter_app, length_app. simpl.
  rewrite app_nil_r, Nat.add_0_r, Hlog, Hpause, Hcount. done.
Qed.

Lemma one_message_per_address_witness :
  exists n log,
    email_sender.send_emails flaky_mail full_environ
      (email_sender.DataList (email_sender.PyDict <$> mail_rows))
      (lit "email_template.txt") (lit "Services")
      = (email_sender.Returned n, log) /\
    omap smtp_message log
      = mjoin (row_messages (lit "Hello {{name}}") (lit "Services") <$> mail_rows) /\
    length (filter (fun e => is_pause e = true) log)
      = length (omap smtp_message log) /\
    n = successes flaky_mail 0 (length (omap smtp_message log)).
Proof.
  apply (one_message_per_address flaky_mail full_environ
           (email_sender.PyDict <$> mail_rows) mail_rows
           (lit "email_template.txt") (lit "Hello {{name}}") (lit "Services") 2525).
  - reflexivity.
  - reflexivity.
  - reflexivity.
  - reflexivity.
  - reflexivity.
  - reflexivity.
  - vm_compute; reflexivity.
  - discriminate.
  - repeat constructor; discriminate.
Defined.

(** X17: with a complete configuration and a port that is not zero, a row
    whose emails value is [None] makes [send_emails] raise: the messages of
    the rows before it have been sent, and no later row is treated. *)
Theorem row_without_emails_value_raises (M : email_sender.Mail)
  (env : email_sender.environ) (good rest : list email_sender.row)
  (bad : email_sender.row) (template_file template subject : pystr) (p : Z) :
  email_sender.read_file M template_file = Some template ->
  email_sender.truthy (email_sender.SMTP_FROM_EMAIL env) = true ->
  email_sender.truthy (email_sender.SMTP_SERVER env) = true ->
  email_sender.truthy (email_sender.SMTP_USERNAME env) = true ->
  email_sender.truthy (email_sender.SMTP_PASSWORD env) = true ->
  env_port M env = Some p -> p <> 0%Z ->
  Forall (fun r => email_sender.dict_get r email_sender.emails_key (Some []) <> None)
         good ->
  email_sender.dict_get bad email_sender.emails_key (Some []) = None ->
  exists log,
    email_sender.send_emails M env
      (email_sender.DataList (email_sender.PyDict <$> good ++ bad :: rest))
      template_file subject
      = (email_sender.Propagated, log) /\
    omap smtp_message log = mjoin (row_messages template subject <$> good).
Proof.
  intros Hfile Hfrom Hserver Huser Hpass Hport Hp Hgood Hbad.
  unfold email_sender.send_emails.
  assert (Hl : mapM email_sender.as_dict (email_sender.PyDict <$> good ++ bad :: rest)
               = Some (good ++ bad :: rest)).
  { apply mapM_Some. apply Forall2_fmap_l. by apply Forall_Forall2_diag, Forall_true. }
  rewrite Hl, Hfile, Hfrom, Hserver, Huser, Hpass. cbn [andb negb].
  match goal with
  | |- context [email_sender.send_rows M env template subject _ ?st0] =>
      destruct (send_rows_interrupted M env template subject Hfrom Hserver Huser Hpass
                  p good bad rest st0 Hport Hp Hgood Hbad)
        as (st' & -> & Hlog & _)
  end.
  eexists. split; [done|]. by rewrite Hlog.
Qed.

Lemma row_without_emails_value_raises_witness :
  exists log,
    email_sender.send_emails flaky_mail full_environ
      (email_sender.DataList
         (email_sender.PyDict <$> mail_rows ++ [(lit "emails", None)] :: []))
      (lit "email_template.txt") (lit "Services")
      = (email_sender.Propagated, log) /\
    omap smtp_message log
      = mjoin (row_messages (lit "Hello {{name}}") (lit "Services") <$> mail_rows).
Proof.
  apply (row_without_emails_value_raises flaky_mail full_environ mail_rows []
           [(lit "emails", None)] (lit "email_template.txt") (lit "Hello {{name}}")
           (lit "Services") 2525).
  - reflexivity.
  - reflexivity.
  - reflexivity.
  - reflexivity.
  - reflexivity.
  - vm_compute; reflexivity.
  - discriminate.
  - repeat constructor; discriminate.
  - reflexivity.
Defined.

(** X14: with a complete configuration and an [SMTP_PORT] that [int]
    refuses, [send_emails] opens no SMTP session: the exception of [int]
    leaves it at the first address that is not blank, and it returns 0 only
    if it meets none. *)
Theorem bad_port_sends_nothing (M : email_sender.Mail) (env : email_sender.environ)
  (emails_data : email_sender.pydata) (template_file subject : pystr) :
  email_sender.truthy (email_sender.SMTP_FROM_EMAIL env) = true ->
  email_sender.truthy (email_sender.SMTP_SERVER env) = true ->
  email_sender.truthy (email_sender.SMTP_USERNAME env) = true ->
  email_sender.truthy (email_sender.SMTP_PASSWORD env) = true ->
  env_port M env = None ->
  let result := email_sender.send_emails M env emails_data template_file subject in
  omap smtp_message (snd result) = [] /\
  (fst result = email_sender.Propagated \/ fst result = email_sender.Returned 0).
Proof.
  intros Hfrom Hserver Huser Hpass Hport. unfold email_sender.send_emails.
  destruct emails_data as [l|]; [|by split; [|right]].
  destruct (mapM email_sender.as_dict l) as [rows|]; [|by split; [|right]].
  destruct (email_sender.read_file M template_file) as [template|];
    [|by split; [|right]].
  rewrite Hfrom, Hserver, Huser, Hpass. cbn [andb negb].
  match goal with
  | |- context [email_sender.send_rows M env template subject rows ?st0] =>
      destruct (send_rows_bad_port M env template subject rows st0 Hport)
        as [-> | ->]
  end; simpl.
  - split; [done|by right].
  - split; [done|by left].
Qed.

Lemma bad_port_sends_nothing_witness :
  let result := email_sender.send_emails flaky_mail bad_port_environ
                  (email_sender.DataList (email_sender.PyDict <$> mail_rows))
                  (lit "email_template.txt") (lit "Services") in
  omap smtp_message (snd result) = [] /\
  (fst result = email_sender.Propagated \/ fst result = email_sender.Returned 0).
Proof.
  apply (bad_port_sends_nothing flaky_mail bad_port_environ); reflexivity.
Defined.

(** ** Rendering a template *)

Section Rendering.
Import email_sender.

Lemma no_braces_no_placeholder t key :
  contains (lit "{{") t = false -> contains (placeholder key) t = false.
Proof.
  intros Ht. destruct (contains (placeholder key) t) eqn:Hk; [|done].
  apply contains_spec in Hk as (pre & post & ->).
  rewrite <- Ht. symmetry. apply contains_spec.
  exists pre, (key ++ lit "}}" ++ post). unfold placeholder.
  by rewrite <- !app_assoc.
Qed.

Lemma no_braces_placeholder_free t r :
  contains (lit "{{") t = false -> placeholder_free r t = true.
Proof.
  intros Ht. unfold placeholder_free. induction r as [|[key value] r IH]; [done|].
  cbn [forallb fst]. rewrite IH, no_braces_no_placeholder by done.
  by rewrite orb_true_r.
Qed.

(** Text without the first code point of [old] is copied. *)
Lemma replace_from_plain x old' new a s :
  x ∉ a ->
  replace_from (x :: old') new O (a ++ s) = a ++ replace_from (x :: old') new O s.
Proof.
  induction a as [|c a IH]; [done|]. intros Hx.
  apply not_elem_of_cons in Hx as [Hc Hx]. cbn [app replace_from startswith].
  destruct (N.eqb_spec c x); [congruence|]. cbn [andb]. by rewrite IH.
Qed.

Lemma replace_from_skip old new p s :
  replace_from old new (length p) (p ++ s) = replace_from old new O s.
Proof. induction p as [|c p IH]; [done|]. exact IH. Qed.

(** An occurrence at the start is replaced, and the scan goes on after
    it. *)
Lemma replace_from_here x old' new s :
  replace_from (x :: old') new O ((x :: old') ++ s)
  = new ++ replace_from (x :: old') new O s.
Proof.
  assert (Hp : startswith ((x :: old') ++ s) (x :: old') = true)
    by (apply startswith_spec; by exists s).
  cbn [app replace_from] in *. rewrite Hp. cbn [length pred].
  by rewrite replace_from_skip.
Qed.

End Rendering.

(** X15: a template without two opening braces in a row is rendered as it
    is, whatever the row. *)
Theorem template_without_braces_is_unchanged (template : pystr) (r : email_sender.row) :
  contains (lit "{{") template = false ->
  email_sender.render template r = template.
Proof.
  intros Ht. apply render_items_absent. by apply no_braces_placeholder_free.
Qed.

Lemma template_without_braces_is_unchanged_witness :
  contains (lit "{{") (lit "Hello {name}, write to us") = false /\
  email_sender.render (lit "Hello {name}, write to us") greeting_row
    = lit "Hello {name}, write to us".
Proof.
  split; [vm_compute; reflexivity|].
  apply (template_without_braces_is_unchanged (lit "Hello {name}, write to us")
           greeting_row).
  vm_compute; reflexivity.
Defined.

(** X16: for a row with one column other than the emails column, a
    placeholder of that column that comes after text without an opening
    brace is replaced by the value of the column, and the rendering goes on
    after it. *)
Theorem placeholder_after_plain_text (key : pystr) (value : option pystr)
  (before rest : pystr) :
  key <> email_sender.emails_key ->
  chr "{" ∉ before ->
  email_sender.render (before ++ email_sender.placeholder key ++ rest) [(key, value)]
  = before ++ email_sender.str value ++ email_sender.render rest [(key, value)].
Proof.
  intros Hkey Hplain. unfold email_sender.render. cbn [email_sender.render_items].
  rewrite bool_decide_eq_true_2 by done.
  unfold email_sender.placeholder.
  change (lit "{{" ++ key ++ lit "}}") with (chr "{" :: (chr "{" :: key ++ lit "}}")).
  cbn [email_sender.replace].
  rewrite replace_from_plain by done. by rewrite replace_from_here.
Qed.

Lemma placeholder_after_plain_text_witness :
  lit "name" <> email_sender.emails_key /\
  (chr "{" ∉ lit "Hello ") /\
  email_sender.render (lit "Hello " ++ email_sender.placeholder (lit "name") ++ lit "!")
    [(lit "name", Some (lit "Bob"))]
  = lit "Hello " ++ lit "Bob" ++ email_sender.render (lit "!") [(lit "name", Some (lit "Bob"))].
Proof.
  assert (Hkey : lit "name" <> email_sender.emails_key) by discriminate.
  assert (Hplain : chr "{" ∉ lit "Hello ")
    by (apply (bool_decide_unpack _); vm_compute; exact I).
  split; [exact Hkey|]. split; [exact Hplain|].
  apply (placeholder_after_plain_text (lit "name") (Some (lit "Bob"))
           (lit "Hello ") (lit "!")); [exact Hkey|exact Hplain].
Defined.

(** ** Rendering twice *)

Section RenderingTwice.
Import email_sender.

Lemma flatten_cons p tpl : flatten (p :: tpl) = piece_text p ++ flatten tpl.
Proof. done. Qed.

Lemma placeholder_cons key :
  placeholder key = chr "{" :: chr "{" :: key ++ lit "}}".
Proof. done. Qed.

(** Two strings without [x] that end at an [x] at the same place are
    equal. *)
Lemma app_sep_inj (x : N) (a b s s' : pystr) :
  x ∉ a -> x ∉ b -> a ++ x :: s = b ++ x :: s' -> a = b.
Proof.
  revert b; induction a as [|c a IH]; intros [|d b] Ha Hb Heq; simpl in Heq.
  - done.
  - injection Heq as -> _. apply not_elem_of_cons in Hb as [? _]. done.
  - injection Heq as -> _. apply not_elem_of_cons in Ha as [? _]. done.
  - injection Heq as -> Heq. apply not_elem_of_cons in Ha as [_ Ha].
    apply not_elem_of_cons in Hb as [_ Hb]. f_equal. by eapply IH.
Qed.

(** The placeholder of another name is no occurrence of the placeholder of
    [key], neither at its first brace nor at its second. *)
Lemma other_hole_first name key rest :
  no_brace name -> no_brace key -> name <> key ->
  startswith (placeholder name ++ rest) (placeholder key) = false.
Proof.
  intros [_ Hn] [_ Hk] Hne.
  destruct (startswith (placeholder name ++ rest) (placeholder key)) eqn:Hs; [|done].
  apply startswith_spec in Hs as [rest' Heq].
  rewrite !placeholder_cons in Heq. simpl in Heq. injection Heq as Heq.
  rewrite <- !app_assoc in Heq. simpl in Heq.
  by apply app_sep_inj in Heq.
Qed.

Lemma other_hole_second name key rest :
  no_brace name ->
  startswith (chr "{" :: (name ++ lit "}}") ++ rest) (placeholder key) = false.
Proof.
  intros [Hn _]. rewrite placeholder_cons. cbn [startswith].
  rewrite N.eqb_refl. cbn [andb].
  destruct name as [|c name]; [done|].
  apply not_elem_of_cons in Hn as [Hc _]. cbn [app startswith].
  destruct (N.eqb_spec c (chr "{")); [congruence|done].
Qed.

(** Replacing the placeholder of [key] goes through a plain template piece
    by piece. *)
Lemma replace_piece key new p rest :
  plain_piece p -> no_brace key ->
  replace_from (placeholder key) new O (piece_text p ++ rest)
  = piece_text (fill key new p) ++ replace_from (placeholder key) new O rest.
Proof.
  intros Hp Hkey. destruct p as [s|name]; simpl in Hp.
  - rewrite placeholder_cons. by apply replace_from_plain.
  - cbn [fill piece_text]. case_bool_decide as Hname.
    + subst name. rewrite (placeholder_cons key). apply replace_from_here.
    + pose proof (other_hole_first name key rest Hp Hkey Hname) as H1.
      pose proof (other_hole_second name key rest Hp) as H2.
      cbn [piece_text]. rewrite (placeholder_cons name) in *. cbn [app] in *.
      cbn [replace_from]. rewrite H1. f_equal.
      cbn [replace_from]. rewrite H2. f_equal.
      rewrite (placeholder_cons key). apply replace_from_plain.
      destruct Hp as [Hopen _]. rewrite elem_of_app. intros [?|Hin]; [done|].
      revert Hin. apply (bool_decide_unpack _). vm_compute. exact I.
Qed.

Lemma replace_flatten key new tpl :
  plain_template tpl -> no_brace key ->
  replace (placeholder key) new (flatten tpl) = flatten (fill key new <$> tpl).
Proof.
  intros Htpl Hkey. rewrite (placeholder_cons key). cbn [replace].
  rewrite <- (placeholder_cons key).
  induction Htpl as [|p tpl Hp _ IH]; [done|].
  rewrite fmap_cons, !flatten_cons, replace_piece by done. by rewrite IH.
Qed.

Lemma fill_plain key new tpl :
  chr "{" ∉ new -> plain_template tpl -> plain_template (fill key new <$> tpl).
Proof.
  intros Hnew Htpl. apply Forall_fmap. eapply Forall_impl; [exact Htpl|].
  intros [s|name] Hp; simpl; [done|]. by case_bool_decide.
Qed.

(** Rendering a plain template with a plain row fills its placeholders,
    column after column. *)
Lemma render_items_flatten r tpl :
  plain_row r -> plain_template tpl ->
  render_items r (flatten tpl) = flatten (fill_row r tpl) /\
  plain_template (fill_row r tpl).
Proof.
  intros Hr. revert tpl. induction Hr as [|[key value] r Hkv _ IH]; intros tpl Htpl.
  - done.
  - cbn [render_items fill_row]. simpl in Hkv. case_bool_decide as Hkey.
    + destruct (Hkv Hkey) as [Hk Hv]. rewrite replace_flatten by done.
      apply IH. by apply fill_plain.
    + by apply IH.
Qed.

(** Filling leaves no placeholder of the column, and makes none. *)
Lemma fill_removes key new (tpl : list piece) : Hole key ∉ (fill key new <$> tpl).
Proof.
  intros Hin. apply list_elem_of_fmap in Hin as ([s|name] & Heq & _); simpl in Heq.
  - done.
  - case_bool_decide; [done|]. congruence.
Qed.

Lemma fill_keeps key new name (tpl : list piece) :
  Hole name ∈ (fill key new <$> tpl) -> Hole name ∈ tpl.
Proof.
  intros Hin. apply list_elem_of_fmap in Hin as ([s|n] & Heq & Hin); simpl in Heq.
  - done.
  - case_bool_decide; [done|]. by injection Heq as ->.
Qed.

Lemma fill_row_keeps r name tpl :
  Hole name ∈ fill_row r tpl -> Hole name ∈ tpl.
Proof.
  revert tpl; induction r as [|[key value] r IH]; intros tpl; cbn [fill_row]; [done|].
  intros Hin. apply IH in Hin. case_bool_decide; [|done]. by eapply fill_keeps.
Qed.

Lemma fill_row_removes r tpl key value :
  (key, value) ∈ r -> key <> emails_key -> Hole key ∉ fill_row r tpl.
Proof.
  revert tpl; induction r as [|[k v] r IH]; intros tpl Hin Hkey.
  - by apply elem_of_nil in Hin.
  - cbn [fill_row]. apply elem_of_cons in Hin as [[= <- <-]|Hin].
    + rewrite bool_decide_eq_true_2 by done. intros Hhole.
      apply fill_row_keeps in Hhole. by apply fill_removes in Hhole.
    + by apply IH.
Qed.

Lemma fill_absent key new (tpl : list piece) :
  Hole key ∉ tpl -> fill key new <$> tpl = tpl.
Proof.
  induction tpl as [|p tpl IH]; [done|]. intros Hin.
  apply not_elem_of_cons in Hin as [Hp Hin]. rewrite fmap_cons, IH by done.
  f_equal. destruct p as [s|name]; simpl; [done|].
  case_bool_decide; [congruence|done].
Qed.

Lemma fill_row_absent r (tpl : list piece) :
  (forall key value, (key, value) ∈ r -> key <> emails_key -> Hole key ∉ tpl) ->
  fill_row r tpl = tpl.
Proof.
  induction r as [|[k v] r IH]; intros Hr; cbn [fill_row]; [done|].
  case_bool_decide as Hk.
  - rewrite fill_absent by (apply (Hr k v); [left|done]).
    apply IH. intros key value Hin. apply (Hr key value). by right.
  - apply IH. intros key value Hin. apply (Hr key value). by right.
Qed.

End RenderingTwice.

(** Values that hold no placeholder but opening braces are not enough
    either, even for a template whose braces are those of its
    placeholders: rendering [{{a}}{{c}}] gives [{{b}}], and rendering that
    again gives [X]. *)
Example render_twice_differs_by_values :
  email_sender.render (flatten [Hole (lit "a"); Hole (lit "c")]) braces_row
    = lit "{{b}}" /\
  email_sender.render
    (email_sender.render (flatten [Hole (lit "a"); Hole (lit "c")]) braces_row)
    braces_row = lit "X".
Proof. split; vm_compute; reflexivity. Qed.

(** C9, amended: rendering is idempotent when, for every column other
    than the emails column, the value holds no opening brace (and so no
    placeholder) and the name no brace, and the braces of the template are
    those of its placeholders: the template is made of text without an
    opening brace and of placeholders whose names hold no brace. *)
Theorem render_idempotent_on_plain_template (tpl : list piece) (r : email_sender.row) :
  plain_row r ->
  plain_template tpl ->
  email_sender.render (email_sender.render (flatten tpl) r) r
    = email_sender.render (flatten tpl) r.
Proof.
  intros Hr Htpl. unfold email_sender.render.
  destruct (render_items_flatten r tpl Hr Htpl) as [-> Hplain].
  destruct (render_items_flatten r (fill_row r tpl) Hr Hplain) as [-> _].
  f_equal. apply fill_row_absent. intros key value Hin Hkey.
  by eapply fill_row_removes.
Qed.

Lemma render_idempotent_on_plain_template_witness :
  plain_row greeting_row /\
  plain_template greeting_template /\
  email_sender.render (flatten greeting_template) greeting_row
    = lit "Hello Bob, welcome to {{city}}}!" /\
  email_sender.render (email_sender.render (flatten greeting_template) greeting_row)
    greeting_row
    = email_sender.render (flatten greeting_template) greeting_row.
Proof.
  assert (Hr : plain_row greeting_row).
  { unfold plain_row, no_brace. apply (bool_decide_unpack _). vm_compute. exact I. }
  assert (Htpl : plain_template greeting_template).
  { unfold plain_template, greeting_template, plain_piece, no_brace.
    repeat apply Forall_cons_2; try apply Forall_nil_2; try split;
      apply (bool_decide_unpack _); vm_compute; exact I. }
  split; [exact Hr|]. split; [exact Htpl|]. split; [vm_compute; reflexivity|].
  apply (render_idempotent_on_plain_template greeting_template greeting_row);
    [exact Hr|exact Htpl].
Defined.
